(** * RPG-Inventory: the placement state machine of the inventory prototypes

    A shallow embedding of the React component [App] of the two
    equipment-plus-storage prototypes of the repository:

    - the prototype persisted under the key ["rpg.inventory.storage-fixed"]
      (module [StorageFixed] below), whose [handleDragEnd] has four cases, and
    - [rpg-inventory-local/src/App.tsx], persisted under
      ["rpg.inventory.tooltip-hover"] (module [TooltipHover]), whose
      [handleDragEnd] has three cases and whose [addItem] parses a stats text.

    The first prototype, [BU/App_0.1.tsx], has eight anonymous slots and no
    storage list; its handler is in module [SlotsOnly].

    The component state is the tuple of its [useState] cells.  An event
    handler is run against the state of the render that created it (its
    closure reads [storageOrder] from that snapshot) and enqueues updater
    functions; React applies them in order to the pending state.  Handlers are
    therefore written in a small state monad over the pending state, with the
    snapshot as an ordinary argument. *)

From Stdlib Require Import ZArith Ascii.
From stdpp Require Import base strings list gmap fin_maps.

Local Open Scope string_scope.
Local Open Scope list_scope.

(** ** JavaScript strings

    A string is a sequence of code units; the embedding uses Rocq's [string],
    so code units range over 0..255. *)

(** [WhiteSpace] and [LineTerminator] code units below 256: TAB, LF, VT, FF,
    CR, SP and NBSP.  [String.prototype.trim] and [Number] strip exactly
    these. *)
Definition isWhiteSpace (c : ascii) : bool :=
  match nat_of_ascii c with
  | 9 | 10 | 11 | 12 | 13 | 32 | 160 => true
  | _ => false
  end.

Fixpoint trimStart (s : string) : string :=
  match s with
  | EmptyString => EmptyString
  | String c s' => if isWhiteSpace c then trimStart s' else s
  end.

Fixpoint trimEnd (s : string) : string :=
  match s with
  | EmptyString => EmptyString
  | String c s' =>
      match trimEnd s' with
      | EmptyString => if isWhiteSpace c then EmptyString else String c EmptyString
      | t => String c t
      end
  end.

(** [s.trim()] *)
Definition trim (s : string) : string := trimEnd (trimStart s).

(** [s.split(sep)] for a one-character separator: always at least one
    piece, empty pieces are kept. *)
Fixpoint split (sep : ascii) (s : string) : list string :=
  match s with
  | EmptyString => [EmptyString]
  | String c s' =>
      if decide (c = sep) then EmptyString :: split sep s'
      else match split sep s' with
           | h :: t => String c h :: t
           | [] => [String c EmptyString]
           end
  end.

(** Truthiness of a string: only the empty string is falsy. *)
Definition truthy (s : string) : bool := negb (bool_decide (s = "")).

(** Truthiness of [string | null | undefined]. *)
Definition truthy_opt (o : option string) : bool :=
  match o with
  | Some s => truthy s
  | None => false
  end.

(** *** [Number] applied to a string

    [Number(s)] is not NaN exactly when [s], stripped of white space, is empty
    (the value is then 0) or derives [StrNumericLiteral].  The recogniser
    below follows that grammar; the value itself is a double and is kept
    symbolically (see [StatValue]). *)

Definition isDecimalDigit (c : ascii) : bool :=
  let n := nat_of_ascii c in (48 <=? n)%nat && (n <=? 57)%nat.

Definition isBinaryDigit (c : ascii) : bool :=
  let n := nat_of_ascii c in (48 <=? n)%nat && (n <=? 49)%nat.

Definition isOctalDigit (c : ascii) : bool :=
  let n := nat_of_ascii c in (48 <=? n)%nat && (n <=? 55)%nat.

Definition isHexDigit (c : ascii) : bool :=
  let n := nat_of_ascii c in
  ((48 <=? n)%nat && (n <=? 57)%nat)
  || ((65 <=? n)%nat && (n <=? 70)%nat)
  || ((97 <=? n)%nat && (n <=? 102)%nat).

Fixpoint all_chars (p : ascii → bool) (s : string) : bool :=
  match s with
  | EmptyString => true
  | String c s' => p c && all_chars p s'
  end.

(** One or more characters, all satisfying [p]. *)
Definition some_chars (p : ascii → bool) (s : string) : bool :=
  match s with
  | EmptyString => false
  | _ => all_chars p s
  end.

(** Drops the longest prefix of decimal digits, and tells whether it was
    non-empty. *)
Fixpoint skipDigits (s : string) : bool * string :=
  match s with
  | EmptyString => (false, EmptyString)
  | String c s' =>
      if isDecimalDigit c then (true, snd (skipDigits s')) else (false, s)
  end.

(** [SignedInteger]: an optional sign, then [DecimalDigits]. *)
Definition isSignedInteger (s : string) : bool :=
  match s with
  | String "+" r | String "-" r => some_chars isDecimalDigit r
  | _ => some_chars isDecimalDigit s
  end.

(** [ExponentPart], optional. *)
Definition isExponentPartOpt (s : string) : bool :=
  match s with
  | EmptyString => true
  | String "e" r | String "E" r => isSignedInteger r
  | _ => false
  end.

Definition isStrUnsignedDecimalLiteral (s : string) : bool :=
  if bool_decide (s = "Infinity") then true
  else
    let '(hasInt, r1) := skipDigits s in
    match r1 with
    | String "." r2 =>
        let '(hasFrac, r3) := skipDigits r2 in
        (hasInt || hasFrac) && isExponentPartOpt r3
    | _ => hasInt && isExponentPartOpt r1
    end.

Definition isStrDecimalLiteral (s : string) : bool :=
  match s with
  | String "+" r | String "-" r => isStrUnsignedDecimalLiteral r
  | _ => isStrUnsignedDecimalLiteral s
  end.

Definition isNonDecimalIntegerLiteral (s : string) : bool :=
  match s with
  | String "0" (String "b" r) | String "0" (String "B" r) => some_chars isBinaryDigit r
  | String "0" (String "o" r) | String "0" (String "O" r) => some_chars isOctalDigit r
  | String "0" (String "x" r) | String "0" (String "X" r) => some_chars isHexDigit r
  | _ => false
  end.

Definition isStrNumericLiteral (s : string) : bool :=
  isStrDecimalLiteral s || isNonDecimalIntegerLiteral s.

(** [!isNaN(Number(s))] for a string [s]. *)
Definition isNumericString (s : string) : bool :=
  let t := trim s in
  bool_decide (t = "") || isStrNumericLiteral t.

(** ** Data model *)

(** A value stored in [Stats].  The declared type is [string | number]; the
    parser can also store [undefined] (see [parseStats]).  A number is kept
    as the text [Number] was applied to. *)
Inductive StatValue : Type :=
  | SUndefined
  | SNumber (literal : string)
  | SString (s : string).

#[global] Instance StatValue_eq_dec : EqDecision StatValue.
Proof. solve_decision. Defined.

Record Item : Type := mkItem {
  id : string;
  name : string;
  icon : option string;
  description : option string;
  stats : gmap string StatValue
}.

(** [SlotsState = Record<string, string | null>]: a key bound to [null] is a
    key without a binding. *)
Abbreviation SlotsState := (gmap string string).

Definition SLOT_IDS : list string := ["head"; "body"; "mainHand"; "offHand"; "legs"].

Definition isSlotId (x : string) : bool := bool_decide (x ∈ SLOT_IDS).

(** The [useState] cells of [App]. *)
Record AppState : Type := mkApp {
  items : list Item;
  storageOrder : list string;
  slots : SlotsState;
  newName : string;
  newIcon : string;
  newDesc : string;
  newStats : string
}.

(** State of the first render when nothing was persisted. *)
Definition initialState : AppState :=
  mkApp [] [] ∅ "" "" "" "".

(** ** JavaScript arrays of ids *)

(** [l.includes(x)] *)
Definition includes (l : list string) (x : string) : bool := bool_decide (x ∈ l).

(** [l.indexOf(x)]: the first index holding [x], or -1. *)
Fixpoint indexOf (l : list string) (x : string) : Z :=
  match l with
  | [] => (-1)%Z
  | y :: l' =>
      if decide (y = x) then 0%Z
      else let i := indexOf l' x in
           if (i <? 0)%Z then (-1)%Z else (i + 1)%Z
  end.

(** The index at which [Array.prototype.splice] starts, for a relative
    [start] and an array of length [len]. *)
Definition spliceStart (len : nat) (start : Z) : nat :=
  if (start <? 0)%Z then Z.to_nat (Z.max (Z.of_nat len + start) 0)
  else Z.to_nat (Z.min start (Z.of_nat len)).

(** [a.splice(start, 1)]: the removed element, if any, and the array left. *)
Definition spliceOut {A} (a : list A) (start : Z) : option A * list A :=
  let i := spliceStart (length a) start in
  (a !! i, delete i a).

(** [a.splice(start, 0, x)] *)
Definition spliceIn {A} (a : list A) (start : Z) (x : A) : list A :=
  let i := spliceStart (length a) start in
  take i a ++ x :: drop i a.

(** [arrayMove] of [@dnd-kit/sortable]:
<<
  const newArray = array.slice();
  newArray.splice(to < 0 ? newArray.length + to : to, 0,
                  newArray.splice(from, 1)[0]);
  return newArray;
>>
    The insertion index is computed before the removal.  When [from] is out
    of range nothing is removed and JavaScript inserts [undefined]; an array
    of ids cannot hold it, the array is then returned as it is.
    [handleDragEnd] only passes indices of members ([indexOf_lookup]). *)
Definition arrayMove {A} (array : list A) (from to : Z) : list A :=
  let start := if (to <? 0)%Z then (Z.of_nat (length array) + to)%Z else to in
  match spliceOut array from with
  | (Some x, newArray) => spliceIn newArray start x
  | (None, newArray) => newArray
  end.

(** ** Event handlers

    A handler runs to a completion (normal, or abrupt with a thrown value)
    and leaves a pending state. *)

Inductive completion (A : Type) : Type :=
  | Normal (a : A)
  | Throw (e : string).
Arguments Normal {A} a.
Arguments Throw {A} e.

Definition Handler (A : Type) : Type := AppState → completion A * AppState.

Definition ret {A} (a : A) : Handler A := λ p, (Normal a, p).

Definition bind {A B} (m : Handler A) (k : A → Handler B) : Handler B :=
  λ p, match m p with
       | (Normal a, p') => k a p'
       | (Throw e, p') => (Throw e, p')
       end.

Notation "m ;; k" := (bind m (λ _, k))
  (at level 100, k at level 200, right associativity).

(** [if (b) m] *)
Definition when (b : bool) (m : Handler ()) : Handler () :=
  if b then m else ret ().

(** [setItems(updater)] and its siblings: the updater is applied to the
    pending value of the cell. *)
Definition setItems (f : list Item → list Item) : Handler () :=
  λ p, (Normal (),
        mkApp (f (items p)) (storageOrder p) (slots p)
              (newName p) (newIcon p) (newDesc p) (newStats p)).

Definition setStorageOrder (f : list string → list string) : Handler () :=
  λ p, (Normal (),
        mkApp (items p) (f (storageOrder p)) (slots p)
              (newName p) (newIcon p) (newDesc p) (newStats p)).

Definition setSlots (f : SlotsState → SlotsState) : Handler () :=
  λ p, (Normal (),
        mkApp (items p) (storageOrder p) (f (slots p))
              (newName p) (newIcon p) (newDesc p) (newStats p)).

(** [setSlots] with an updater that itself calls a setter: the updater is
    run on the pending slots when [setSlots] is called, so what it enqueues
    precedes what the handler enqueues afterwards.  (Only the relative order
    of two [setStorageOrder] updaters is at stake, and it does not matter:
    see [equip_updaters_commute].) *)
Definition setSlotsWith (u : SlotsState → Handler SlotsState) : Handler () :=
  λ p, match u (slots p) p with
       | (Normal next, p') =>
           (Normal (),
            mkApp (items p') (storageOrder p') next
                  (newName p') (newIcon p') (newDesc p') (newStats p'))
       | (Throw e, p') => (Throw e, p')
       end.

Definition setNewName (v : string) : Handler () :=
  λ p, (Normal (),
        mkApp (items p) (storageOrder p) (slots p)
              v (newIcon p) (newDesc p) (newStats p)).

Definition setNewIcon (v : string) : Handler () :=
  λ p, (Normal (),
        mkApp (items p) (storageOrder p) (slots p)
              (newName p) v (newDesc p) (newStats p)).

Definition setNewDesc (v : string) : Handler () :=
  λ p, (Normal (),
        mkApp (items p) (storageOrder p) (slots p)
              (newName p) (newIcon p) v (newStats p)).

Definition setNewStats (v : string) : Handler () :=
  λ p, (Normal (),
        mkApp (items p) (storageOrder p) (slots p)
              (newName p) (newIcon p) (newDesc p) v).

(** Running the handler created by the render of [st]: its completion, and
    the state committed afterwards. *)
Definition outcome (h : AppState → Handler ()) (st : AppState) : completion () :=
  fst (h st st).

Definition commit (h : AppState → Handler ()) (st : AppState) : AppState :=
  snd (h st st).

(** The updater shared by [deleteItem], [unequipEverywhere] ([unequip] in
    [App.tsx]) and the equip case:
    [for (const k of SLOT_IDS) if (next[k] === itemId) next[k] = null;] *)
Definition clearSlots (itemId : string) (prev : SlotsState) : SlotsState :=
  foldl (λ next k, if decide (next !! k = Some itemId) then delete k next else next)
        prev SLOT_IDS.

(** [deleteItem(id)], the same in both prototypes. *)
Definition deleteItem (itemId : string) (st : AppState) : Handler () :=
  setItems (λ prev, filter (λ i, id i ≠ itemId) prev);;
  setStorageOrder (λ prev, filter (λ x, x ≠ itemId) prev);;
  setSlots (clearSlots itemId).


(** ** The stats text of the creation form ([App.tsx]) *)

(** [isNaN(Number(v)) ? v : Number(v)], where [v] is a string or
    [undefined]; [Number(undefined)] is NaN. *)
Definition coerce (v : option string) : StatValue :=
  match v with
  | None => SUndefined
  | Some s => if isNumericString s then SNumber s else SString s
  end.

(** [stats[k] = v] on an object created by a literal.  The key
    ["__proto__"] is the accessor inherited from [Object.prototype]; its
    setter ignores a value that is neither an object nor [null], so no entry
    is created. *)
Definition assign (o : gmap string StatValue) (k : string) (v : StatValue)
  : gmap string StatValue :=
  if decide (k = "__proto__") then o else <[k := v]> o.

(** The body of the [forEach]:
<<
  const [k, v] = pair.split("=").map((s) => s.trim());
  if (k) stats[k] = isNaN(Number(v)) ? v : Number(v);
>> *)
Definition parsePair (stats : gmap string StatValue) (pair : string)
  : gmap string StatValue :=
  let kv := trim <$> split "=" pair in
  if truthy_opt (kv !! 0%nat) then
    assign stats (default "" (kv !! 0%nat)) (coerce (kv !! 1%nat))
  else stats.

Definition parseStats (text : string) : gmap string StatValue :=
  foldl parsePair ∅ (split "," text).

Module StorageFixed.

(** [addItem()]; [uuid] is what [crypto.randomUUID()] returns, it is only
    called past the guard. *)
Definition addItem (uuid : string) (st : AppState) : Handler () :=
  if negb (truthy (trim (newName st))) then ret ()
  else
    let newItem :=
      mkItem uuid (trim (newName st))
             (if truthy (newIcon st) then Some (newIcon st) else None)
             None ∅ in
    setItems (λ prev, prev ++ [newItem]);;
    setStorageOrder (λ prev, prev ++ [uuid]);;
    setNewName "";;
    setNewIcon "".

Definition unequipEverywhere (itemId : string) : Handler () :=
  setSlots (clearSlots itemId).

Definition moveToStorageAtIndex (itemId : string) (toIndex : Z) : Handler () :=
  setStorageOrder (λ prev,
    let without := filter (λ x, x ≠ itemId) prev in
    let clamped := Z.to_nat (Z.max 0 (Z.min toIndex (Z.of_nat (length without)))) in
    take clamped without ++ itemId :: drop clamped without).

(** [handleDragEnd(event)], with [activeId = event?.active?.id] and
    [overId = event?.over?.id]; [None] is [undefined]. *)
Definition handleDragEnd (active over : option string) (st : AppState)
  : Handler () :=
  match active, over with
  | Some activeId, Some overId =>
      if negb (truthy activeId) || negb (truthy overId) then ret ()
      else
        (* 1) Reorder inside storage *)
        let inStorageActive := includes (storageOrder st) activeId in
        let inStorageOver := includes (storageOrder st) overId in
        if inStorageActive && inStorageOver then
          let oldIndex := indexOf (storageOrder st) activeId in
          let newIndex := indexOf (storageOrder st) overId in
          when (negb (oldIndex =? newIndex)%Z)
               (setStorageOrder (λ prev, arrayMove prev oldIndex newIndex))
        (* 2) Dropped onto the storage container *)
        else if bool_decide (overId = "storage") then
          unequipEverywhere activeId;;
          when (negb inStorageActive)
               (setStorageOrder (λ prev, prev ++ [activeId]))
        (* 3) Dropped onto a specific storage item *)
        else if inStorageOver then
          let newIndex := indexOf (storageOrder st) overId in
          unequipEverywhere activeId;;
          moveToStorageAtIndex activeId newIndex
        (* 4) Dropped onto an equipment slot *)
        else if isSlotId overId then
          let targetSlot := overId in
          setSlotsWith (λ prev,
            let replaced := prev !! targetSlot in
            when (truthy_opt replaced
                  && negb (includes (storageOrder st) (default "" replaced)))
                 (setStorageOrder (λ prevOrder, prevOrder ++ [default "" replaced]));;
            ret (<[targetSlot := activeId]> (clearSlots activeId prev)));;
          when inStorageActive
               (setStorageOrder (λ prev, filter (λ x, x ≠ activeId) prev))
        else ret ()
  | _, _ => ret ()
  end.

End StorageFixed.

Module TooltipHover.

(** [addItem()]; [uuid] is what [crypto.randomUUID()] returns, it is only
    called past the guard. *)
Definition addItem (uuid : string) (st : AppState) : Handler () :=
  if negb (truthy (trim (newName st))) then ret ()
  else
    let stats := parseStats (newStats st) in
    let newItem :=
      mkItem uuid (trim (newName st))
             (if truthy (newIcon st) then Some (newIcon st) else None)
             (Some (newDesc st)) stats in
    setItems (λ prev, prev ++ [newItem]);;
    setStorageOrder (λ prev, prev ++ [uuid]);;
    setNewName "";;
    setNewIcon "";;
    setNewDesc "";;
    setNewStats "".

Definition unequip (itemId : string) : Handler () :=
  setSlots (clearSlots itemId).

(** [handleDragEnd(event)]: as in [StorageFixed], without the case of a
    drop onto a stored item by an item that is not stored. *)
Definition handleDragEnd (active over : option string) (st : AppState)
  : Handler () :=
  match active, over with
  | Some activeId, Some overId =>
      if negb (truthy activeId) || negb (truthy overId) then ret ()
      else
        let inStorageActive := includes (storageOrder st) activeId in
        let inStorageOver := includes (storageOrder st) overId in
        if inStorageActive && inStorageOver then
          let oldIndex := indexOf (storageOrder st) activeId in
          let newIndex := indexOf (storageOrder st) overId in
          when (negb (oldIndex =? newIndex)%Z)
               (setStorageOrder (λ prev, arrayMove prev oldIndex newIndex))
        else if bool_decide (overId = "storage") then
          unequip activeId;;
          when (negb inStorageActive)
               (setStorageOrder (λ prev, prev ++ [activeId]))
        else if isSlotId overId then
          setSlotsWith (λ prev,
            let replaced := prev !! overId in
            when (truthy_opt replaced
                  && negb (includes (storageOrder st) (default "" replaced)))
                 (setStorageOrder (λ prev, prev ++ [default "" replaced]));;
            ret (<[overId := activeId]> (clearSlots activeId prev)));;
          when inStorageActive
               (setStorageOrder (λ prev, filter (λ x, x ≠ activeId) prev))
        else ret ()
  | _, _ => ret ()
  end.

End TooltipHover.

(** The two prototypes, and the handlers of each. *)
Inductive Prototype : Type :=
  | StorageFixedApp
  | TooltipHoverApp.

Definition addItem (v : Prototype) : string → AppState → Handler () :=
  match v with
  | StorageFixedApp => StorageFixed.addItem
  | TooltipHoverApp => TooltipHover.addItem
  end.

Definition handleDragEnd (v : Prototype)
  : option string → option string → AppState → Handler () :=
  match v with
  | StorageFixedApp => StorageFixed.handleDragEnd
  | TooltipHoverApp => TooltipHover.handleDragEnd
  end.

(** ** The operations of the inventory store

    [resolveMove], [remove] and [create] are the gestures as the store sees
    them: the state committed after the handler has run. *)

Definition resolveMove (v : Prototype) (activeId targetId : string)
    (st : AppState) : AppState :=
  commit (handleDragEnd v (Some activeId) (Some targetId)) st.

Definition remove (itemId : string) (st : AppState) : AppState :=
  commit (deleteItem itemId) st.

(** Typing into the creation form: the [onChange] handlers. *)
Definition fillForm (name icon desc statsText : string) (st : AppState)
  : AppState :=
  mkApp (items st) (storageOrder st) (slots st) name icon desc statsText.

(** Clicking "Add Item" with the form filled in; [uuid] is the identifier
    [crypto.randomUUID()] hands out if it is called. *)
Definition create (v : Prototype) (uuid : string)
    (name icon desc statsText : string) (st : AppState) : AppState :=
  commit (addItem v uuid) (fillForm name icon desc statsText st).

(** ** Locations of an item *)

Definition catalogIds (st : AppState) : list string := id <$> items st.

Definition equippedIn (st : AppState) (k x : string) : Prop :=
  k ∈ SLOT_IDS ∧ slots st !! k = Some x.

Definition equipped (st : AppState) (x : string) : Prop :=
  ∃ k, equippedIn st k x.

Definition stored (st : AppState) (x : string) : Prop :=
  x ∈ storageOrder st.

(** Every catalog item is equipped or stored, and not both. *)
Definition partitioned (st : AppState) : Prop :=
  ∀ x, x ∈ catalogIds st →
       (equipped st x ∨ stored st x) ∧ ¬ (equipped st x ∧ stored st x).

(** No id twice in storage, no id in two slots. *)
Definition noDuplication (st : AppState) : Prop :=
  NoDup (storageOrder st)
  ∧ (∀ k1 k2 x, slots st !! k1 = Some x → slots st !! k2 = Some x → k1 = k2).

(** An identifier that occurs nowhere in the state, as a version 4 UUID
    drawn by [crypto.randomUUID()] is. *)
Definition freshId (uuid : string) (st : AppState) : Prop :=
  (uuid ∉ catalogIds st)
  ∧ (uuid ∉ storageOrder st)
  ∧ (∀ k, slots st !! k ≠ Some uuid).

(** States reachable from the empty initial state.  A move may name any
    active and target identifiers, a removal any identifier. *)
Inductive reachable (v : Prototype) : AppState → Prop :=
  | reachable_init : reachable v initialState
  | reachable_create st uuid name icon desc statsText :
      reachable v st →
      freshId uuid st →
      reachable v (create v uuid name icon desc statsText st)
  | reachable_remove st itemId :
      reachable v st →
      reachable v (remove itemId st)
  | reachable_move st activeId targetId :
      reachable v st →
      reachable v (resolveMove v activeId targetId st).


(** ** Derived notions used by the statements *)

(** The index of a stored identifier, as a position of [storageOrder]. *)
Definition position (st : AppState) (x : string) : nat :=
  Z.to_nat (indexOf (storageOrder st) x).

(** The storage order after the equip case: the displaced occupant [replaced]
    is appended unless it is falsy or already stored, then the equipped item
    is filtered out if the snapshot had it in storage. *)
Definition storageAfterEquip (s : list string) (replaced : option string)
    (activeId : string) : list string :=
  let s1 := if truthy_opt replaced && negb (includes s (default "" replaced))
            then s ++ [default "" replaced] else s in
  if includes s activeId then filter (λ x, x ≠ activeId) s1 else s1.

(** The reorder transition as the specification words it: remove the active
    id, then reinsert it at the index the target has after the removal. *)
Definition moveToPostRemovalIndex (s : list string) (activeId targetId : string)
  : list string :=
  let without := filter (λ x, x ≠ activeId) s in
  let j := Z.to_nat (indexOf without targetId) in
  take j without ++ activeId :: drop j without.

(** The item [addItem] builds. *)
Definition newItem (v : Prototype) (uuid : string) (st : AppState) : Item :=
  mkItem uuid (trim (newName st))
         (if truthy (newIcon st) then Some (newIcon st) else None)
         (match v with StorageFixedApp => None | TooltipHoverApp => Some (newDesc st) end)
         (match v with StorageFixedApp => ∅ | TooltipHoverApp => parseStats (newStats st) end).

(** The key and the value text of a pair of the stats text, as the
    destructuring [const [k, v] = ...] binds them: the value is [None]
    ([undefined]) when the pair has no ['=']. *)
Definition pairKey (pair : string) : string :=
  default "" ((trim <$> split "=" pair) !! 0%nat).

Definition pairValue (pair : string) : option string :=
  (trim <$> split "=" pair) !! 1%nat.

(** Whether the character occurs in the string. *)
Fixpoint occursIn (c : ascii) (s : string) : bool :=
  match s with
  | EmptyString => false
  | String c' s' => bool_decide (c' = c) || occursIn c s'
  end.

(** The last pair of the list that carries the key [k]. *)
Definition lastWithKey (k : string) (pairs : list string) : option string :=
  last (filter (λ p, pairKey p = k) pairs).

(** Every identifier held by a slot or listed in the storage order names a
    catalog item. *)
Definition referencesInCatalog (st : AppState) : Prop :=
  ∀ y, equipped st y ∨ stored st y → y ∈ catalogIds st.

(** A well-formed slot assignment: no id in two slots, only the five slot
    identifiers as keys, no empty string held. *)
Definition slotsWellFormed (m : gmap string string) : Prop :=
  (∀ k1 k2 x, m !! k1 = Some x → m !! k2 = Some x → k1 = k2)
  ∧ (∀ k, is_Some (m !! k) → k ∈ SLOT_IDS)
  ∧ (∀ k, m !! k ≠ Some "").

(** The invariant carried along the reachable states. *)
Definition storeInvariant (st : AppState) : Prop :=
  NoDup (storageOrder st) ∧ slotsWellFormed (slots st).

(** States reachable without ever dropping an item onto the slot that holds
    it. *)
Inductive reachableNoSelfDrop (v : Prototype) : AppState → Prop :=
  | nsd_init : reachableNoSelfDrop v initialState
  | nsd_create st uuid name icon desc statsText :
      reachableNoSelfDrop v st →
      freshId uuid st →
      reachableNoSelfDrop v (create v uuid name icon desc statsText st)
  | nsd_remove st itemId :
      reachableNoSelfDrop v st →
      reachableNoSelfDrop v (remove itemId st)
  | nsd_move st activeId targetId :
      reachableNoSelfDrop v st →
      slots st !! targetId ≠ Some activeId →
      reachableNoSelfDrop v (resolveMove v activeId targetId st).

(** ** Sample states *)

(** Sample states: three stored items; a sword in the main hand with a
    shield (and a potion) in storage. *)
Definition abcState : AppState :=
  mkApp [mkItem "a" "A" None None ∅; mkItem "b" "B" None None ∅;
         mkItem "c" "C" None None ∅]
        ["a"; "b"; "c"] ∅ "" "" "" "".

Definition swordInHand : AppState :=
  mkApp [mkItem "sword" "Sword" None None ∅; mkItem "shield" "Shield" None None ∅]
        ["shield"] {["mainHand" := "sword"]} "" "" "" "".

Definition swordInHandPotion : AppState :=
  mkApp [mkItem "sword" "Sword" None None ∅; mkItem "shield" "Shield" None None ∅;
         mkItem "potion" "Potion" None None ∅]
        ["potion"; "shield"] {["mainHand" := "sword"]} "" "" "" "".

(** The creation form holding only blanks as the name. *)
Definition blankForm : AppState :=
  fillForm "   " "" "" "attack=5" initialState.

(** A run of three gestures: create an item, equip it into the head slot,
    drop it onto the head slot again. *)
Definition oneItemState (v : Prototype) : AppState :=
  create v "item-1" "Sword" "" "" "" initialState.

Definition equippedState (v : Prototype) : AppState :=
  resolveMove v "item-1" "head" (oneItemState v).

Definition selfDropState (v : Prototype) : AppState :=
  resolveMove v "item-1" "head" (equippedState v).

(** ** Proof steps *)

(** Unfolds a handler down to the setters, for each prototype. *)
Ltac unfold_handler :=
  unfold resolveMove, commit, outcome, handleDragEnd;
  try match goal with v : Prototype |- _ => destruct v end;
  unfold StorageFixed.handleDragEnd, TooltipHover.handleDragEnd,
    StorageFixed.moveToStorageAtIndex, StorageFixed.unequipEverywhere,
    TooltipHover.unequip,
    setSlotsWith, setSlots, setStorageOrder, when, bind, ret.

(** Closes a decidable closed goal by evaluation. *)
Ltac by_decide := apply (bool_decide_unpack _); vm_compute; exact I.

(** ** The rest of the component

    What the component does besides the three gestures: the projections the
    render reads, the load effect, and runs that start from a loaded
    state. *)

(** [items.find((i) => i.id === x)] *)
Definition findItem (its : list Item) (x : string) : option Item :=
  snd <$> list_find (λ i, id i = x) its.

(** The items rendered in the storage list:
    [storageOrder.map((id) => items.find((i) => i.id === id)).filter(Boolean)] *)
Definition storageItems (st : AppState) : list Item :=
  omap (findItem (items st)) (storageOrder st).

(** What an equipment slot renders:
    [slots.head && <EquipmentItem item={items.find((i) => i.id === slots.head)!} />].
    [None]: nothing is rendered; [Some o]: an [EquipmentItem] is rendered
    with what [find] returned, [o = None] being [undefined] passed under the
    non-null assertion. *)
Definition slotContent (st : AppState) (k : string) : option (option Item) :=
  match slots st !! k with
  | Some x => if truthy x then Some (findItem (items st) x) else None
  | None => None
  end.

(** An id is present when a slot holds it or the storage order lists it. *)
Definition present (st : AppState) (x : string) : Prop :=
  equipped st x ∨ stored st x.

(** Every catalog item has a non-empty name without surrounding white
    space. *)
Definition namesTrimmed (st : AppState) : Prop :=
  ∀ i, i ∈ items st → name i ≠ "" ∧ trim (name i) = name i.

(** Runs of gestures from a starting state [s0]; [allowed] restricts the
    moves. *)
Inductive run (v : Prototype) (allowed : AppState → string → string → Prop)
    (s0 : AppState) : AppState → Prop :=
  | run_start : run v allowed s0 s0
  | run_create st uuid name icon desc statsText :
      run v allowed s0 st →
      freshId uuid st →
      run v allowed s0 (create v uuid name icon desc statsText st)
  | run_remove st itemId :
      run v allowed s0 st →
      run v allowed s0 (remove itemId st)
  | run_move st activeId targetId :
      run v allowed s0 st →
      allowed st activeId targetId →
      run v allowed s0 (resolveMove v activeId targetId st).

(** Any move. *)
Definition anyMove (st : AppState) (activeId targetId : string) : Prop := True.

(** Moves that do not drop an item onto the slot holding it. *)
Definition noSelfDrop (st : AppState) (activeId targetId : string) : Prop :=
  slots st !! targetId ≠ Some activeId.

(** Moves of catalog items, as the rendered draggables are. *)
Definition catalogMove (st : AppState) (activeId targetId : string) : Prop :=
  activeId ∈ catalogIds st.

(** *** The load effect *)

(** The object [JSON.parse(raw)] returns, read through [parsed.items],
    [parsed.storageOrder] and [parsed.slots]: a field is [None] when it is
    missing or [null] (what [??] replaces), and has the type the component
    expects otherwise.  A slot of the persisted object holds a string or
    [null]. *)
Record Parsed : Type := mkParsed {
  p_items : option (list Item);
  p_storageOrder : option (list string);
  p_slots : option (gmap string (option string))
}.

(** What [localStorage.getItem(LS_KEY)] holds. *)
Inductive Persisted : Type :=
  | NoBlob                  (* [null] or the empty string: [raw] is falsy *)
  | Malformed               (* [JSON.parse(raw)] throws a SyntaxError *)
  | JsonNull                (* the text [null]: reading [parsed.items] throws *)
  | JsonValue (p : Parsed). (* any other JSON value *)

(** [JSON.parse(raw)] followed by the first property read. *)
Definition readParsed (raw : Persisted) : Handler Parsed :=
  λ p, match raw with
       | JsonValue q => (Normal q, p)
       | JsonNull => (Throw "TypeError", p)
       | Malformed | NoBlob => (Throw "SyntaxError", p)
       end.

(** [try { m } catch {}]: what [m] enqueued before throwing stays
    enqueued. *)
Definition tryCatch (m : Handler ()) : Handler () :=
  λ p, match m p with
       | (Throw _, p') => (Normal (), p')
       | r => r
       end.

(** [{ ...prev, ...parsedSlots }]: a key of the persisted object overrides
    the pending slot, with [null] emptying it. *)
Definition mergeSlots (prev : SlotsState) (parsedSlots : gmap string (option string))
  : SlotsState :=
  merge (λ p q, match q with Some v => v | None => p end) prev parsedSlots.

(** The body shared by the two load effects once [raw] is truthy. *)
Definition installParsed (raw : Persisted) : Handler () :=
  bind (readParsed raw) (λ parsed,
    setItems (λ _, default [] (p_items parsed));;
    setStorageOrder (λ _, default [] (p_storageOrder parsed));;
    setSlots (λ prev, mergeSlots prev (default ∅ (p_slots parsed)))).

(** The demo items of the storage-fixed prototype; the icons are kept as
    the bytes of their UTF-8 encoding. *)
Definition demo : list Item :=
  [mkItem "sword" "Sword" (Some "🗡️") None {["attack" := SNumber "5"]};
   mkItem "shield" "Shield" (Some "🛡️") None {["defense" := SNumber "3"]}].

(** The load effect of each prototype, run once after the first render. *)
Definition loadEffect (v : Prototype) (raw : Persisted) (st : AppState)
  : Handler () :=
  tryCatch (match raw with
            | NoBlob =>
                match v with
                | StorageFixedApp =>
                    setItems (λ _, demo);;
                    setStorageOrder (λ _, id <$> demo)
                | TooltipHoverApp => ret ()
                end
            | _ => installParsed raw
            end).

(** The slots object as [JSON.stringify] writes it and [JSON.parse] reads
    it back: the five slot keys, [null] where empty, and any other key the
    object holds. *)
Definition slotsObject (m : SlotsState) : gmap string (option string) :=
  (Some <$> m) ∪ list_to_map ((λ k, (k, None)) <$> SLOT_IDS).

(** *** The first prototype, [BU/App_0.1.tsx] *)

Module SlotsOnly.

Definition defaultSlots : SlotsState :=
  {["slot0" := "sword"; "slot1" := "shield"; "slot4" := "potion"]}.

(** [handleDragEnd(event)]: [over] is [None] when the drop is outside every
    slot; the loop runs over [Object.keys(next)]. *)
Definition handleDragEnd (activeId : string) (over : option string)
    (prev : SlotsState) : SlotsState :=
  match over with
  | None => prev
  | Some overId =>
      let next :=
        foldl (λ next k, if decide (next !! k = Some activeId)
                         then delete k next else next)
              prev (elements (dom prev)) in
      <[overId := activeId]> next
  end.

End SlotsOnly.

(** *** More sample states *)

(** The state the storage-fixed prototype starts from when nothing is
    persisted. *)
Definition demoState : AppState :=
  commit (loadEffect StorageFixedApp NoBlob) initialState.

(** The demo state after the sword is equipped into the main hand. *)
Definition demoSwordEquipped : AppState :=
  resolveMove StorageFixedApp "sword" "mainHand" demoState.
(** ** Facts about the array operations *)

Section arrays.
Implicit Types (l : list string) (x y : string).

Lemma includes_true l x : includes l x = true ↔ x ∈ l.
Proof. unfold includes. apply bool_decide_eq_true. Qed.

Lemma includes_false l x : includes l x = false ↔ x ∉ l.
Proof. unfold includes. apply bool_decide_eq_false. Qed.

Lemma truthy_true x : truthy x = true ↔ x ≠ "".
Proof.
  unfold truthy. rewrite negb_true_iff. apply bool_decide_eq_false.
Qed.

Lemma indexOf_ge l x : (-1 ≤ indexOf l x)%Z.
Proof.
  induction l as [|y l IH]; simpl; [lia|].
  destruct (decide (y = x)); [lia|].
  destruct (Z.ltb_spec (indexOf l x) 0); lia.
Qed.

Lemma indexOf_absent l x : x ∉ l → indexOf l x = (-1)%Z.
Proof.
  induction l as [|y l IH]; simpl; [done|].
  intros Hx. apply not_elem_of_cons in Hx as [Hne Hx].
  destruct (decide (y = x)); [congruence|].
  rewrite (IH Hx). done.
Qed.

(** The index of a member, as a natural number. *)
Lemma indexOf_member l x :
  x ∈ l →
  ∃ i : nat, indexOf l x = Z.of_nat i
             ∧ l !! i = Some x
             ∧ x ∉ take i l.
Proof.
  induction l as [|y l IH]; [by intros ?%elem_of_nil|].
  intros Hx. simpl.
  destruct (decide (y = x)) as [->|Hne].
  - exists 0%nat. repeat split. simpl. apply not_elem_of_nil.
  - apply elem_of_cons in Hx as [?|Hx]; [congruence|].
    destruct (IH Hx) as (i & Hi & Hl & Ht).
    exists (S i). rewrite Hi.
    destruct (Z.ltb_spec (Z.of_nat i) 0); [lia|].
    split; [lia|]. split; [done|].
    simpl. rewrite not_elem_of_cons. split; [congruence|done].
Qed.

Lemma indexOf_lookup l x :
  x ∈ l → (0 ≤ indexOf l x)%Z ∧ l !! Z.to_nat (indexOf l x) = Some x.
Proof.
  intros (i & -> & Hl & _)%indexOf_member.
  rewrite Nat2Z.id. split; [lia|done].
Qed.

Lemma indexOf_inj l x y :
  x ∈ l → y ∈ l → indexOf l x = indexOf l y → x = y.
Proof.
  intros [_ Hx]%indexOf_lookup [_ Hy]%indexOf_lookup Heq.
  rewrite Heq in Hx. congruence.
Qed.
End arrays.

Section array_move.
Context {A : Type}.
Implicit Types (a : list A) (x : A) (i j : nat).

Lemma spliceStart_in_range (len i : nat) :
  (i ≤ len)%nat → spliceStart len (Z.of_nat i) = i.
Proof.
  intros Hi. unfold spliceStart.
  destruct (Z.ltb_spec (Z.of_nat i) 0); lia.
Qed.

(** Moving the element at index [i] to index [j], both in range: the
    element is taken out, and put back so that it sits at index [j]. *)
Lemma arrayMove_in_range a i j x :
  a !! i = Some x → (j < length a)%nat →
  arrayMove a (Z.of_nat i) (Z.of_nat j)
  = take j (delete i a) ++ x :: drop j (delete i a).
Proof.
  intros Hi Hj. unfold arrayMove, spliceOut, spliceIn.
  pose proof (lookup_lt_Some _ _ _ Hi) as Hlt.
  destruct (Z.ltb_spec (Z.of_nat j) 0); [lia|].
  rewrite spliceStart_in_range by lia. rewrite Hi.
  rewrite spliceStart_in_range; [done|].
  rewrite length_delete by eauto. lia.
Qed.

Lemma arrayMove_lookup a i j x :
  a !! i = Some x → (j < length a)%nat →
  arrayMove a (Z.of_nat i) (Z.of_nat j) !! j = Some x.
Proof.
  intros Hi Hj. rewrite (arrayMove_in_range _ _ _ _ Hi Hj).
  pose proof (lookup_lt_Some _ _ _ Hi) as Hlt.
  assert (length (take j (delete i a)) = j) as Hlen.
  { rewrite length_take, length_delete by eauto. lia. }
  rewrite lookup_app_r by lia. rewrite Hlen, Nat.sub_diag. done.
Qed.

Lemma arrayMove_Permutation a i j x :
  a !! i = Some x → (j < length a)%nat →
  arrayMove a (Z.of_nat i) (Z.of_nat j) ≡ₚ a.
Proof.
  intros Hi Hj. rewrite (arrayMove_in_range _ _ _ _ Hi Hj).
  rewrite <- Permutation_middle, take_drop.
  symmetry. by apply delete_Permutation.
Qed.
End array_move.

(** ** Facts about clearing slots *)

Section clear_slots.
Implicit Types (m : gmap string string) (k x y : string).

Lemma clear_fold_lookup x (ks : list string) m k :
  foldl (λ next k, if decide (next !! k = Some x) then delete k next else next)
        m ks !! k
  = if decide (k ∈ ks ∧ m !! k = Some x) then None else m !! k.
Proof.
  revert m. induction ks as [|k0 ks IH]; intros m; cbn [foldl].
  - case_decide as H; [|done]. destruct H as [H _]. by apply elem_of_nil in H.
  - rewrite IH. clear IH.
    destruct (decide (m !! k0 = Some x)) as [Hk0|Hk0].
    + destruct (decide (k = k0)) as [->|Hne].
      * rewrite lookup_delete_eq.
        rewrite decide_False by (intros [_ ?]; done).
        rewrite decide_True; [done|]. split; [left|done].
      * rewrite lookup_delete_ne by done.
        apply decide_ext. rewrite elem_of_cons. intuition congruence.
    + apply decide_ext. rewrite elem_of_cons. intuition congruence.
Qed.

Lemma clearSlots_lookup x m k :
  clearSlots x m !! k
  = if decide (k ∈ SLOT_IDS ∧ m !! k = Some x) then None else m !! k.
Proof. apply clear_fold_lookup. Qed.

Lemma clearSlots_cleared x m k : k ∈ SLOT_IDS → clearSlots x m !! k ≠ Some x.
Proof.
  intros Hk. rewrite clearSlots_lookup.
  case_decide as H; [done|]. intros Hx. apply H. done.
Qed.

Lemma clearSlots_other x m k y :
  y ≠ x → clearSlots x m !! k = Some y ↔ m !! k = Some y.
Proof.
  intros Hne. rewrite clearSlots_lookup.
  case_decide as H; [|done]. destruct H as [_ H]. rewrite H.
  split; [done|]. intros [= ?]. congruence.
Qed.

Lemma clearSlots_Some x m k y :
  clearSlots x m !! k = Some y → m !! k = Some y.
Proof. rewrite clearSlots_lookup. case_decide; [done|done]. Qed.

Lemma clearSlots_absent x m :
  (∀ k, k ∈ SLOT_IDS → m !! k ≠ Some x) → clearSlots x m = m.
Proof.
  intros H. apply map_eq. intros k. rewrite clearSlots_lookup.
  case_decide as Hk; [|done]. destruct Hk as [Hk Hx]. by destruct (H k Hk).
Qed.
End clear_slots.

(** ** The transitions of [handleDragEnd], case by case *)

Section transitions.
Implicit Types (st : AppState) (a t x : string) (v : Prototype).

Lemma filter_ne_absent (l : list string) x :
  x ∉ l → filter (λ y, y ≠ x) l = l.
Proof.
  induction l as [|y l IH]; [done|].
  intros [Hne Hx]%not_elem_of_cons.
  rewrite filter_cons_True by congruence. by rewrite IH.
Qed.

Lemma filter_ne_gone (l : list string) x : x ∉ filter (λ y, y ≠ x) l.
Proof. rewrite list_elem_of_filter. tauto. Qed.

Lemma truthy_nonempty x : x ≠ "" → truthy x = true.
Proof. apply truthy_true. Qed.

Lemma isSlotId_true x : isSlotId x = true ↔ x ∈ SLOT_IDS.
Proof. unfold isSlotId. apply bool_decide_eq_true. Qed.

Lemma isSlotId_false x : isSlotId x = false ↔ x ∉ SLOT_IDS.
Proof. unfold isSlotId. apply bool_decide_eq_false. Qed.

Lemma storage_not_slot : "storage" ∉ SLOT_IDS.
Proof. apply isSlotId_false. reflexivity. Qed.

(** A gesture without an active item or without a target is ignored. *)
Lemma resolveMove_falsy v a t st : a = "" ∨ t = "" → resolveMove v a t st = st.
Proof.
  intros H.
  assert (negb (truthy a) || negb (truthy t) = true) as Hguard.
  { destruct H as [-> | ->]; [done|]. apply orb_true_r. }
  unfold_handler; by rewrite Hguard.
Qed.

(** Case 1: both identifiers are stored. *)
Lemma resolveMove_reorder v a t st :
  a ≠ "" → t ≠ "" → a ∈ storageOrder st → t ∈ storageOrder st →
  resolveMove v a t st
  = if decide (a = t) then st
    else mkApp (items st)
               (arrayMove (storageOrder st) (indexOf (storageOrder st) a)
                          (indexOf (storageOrder st) t))
               (slots st) (newName st) (newIcon st) (newDesc st) (newStats st).
Proof.
  intros Ha Ht Hsa Hst. unfold_handler.
  all: rewrite !truthy_nonempty by done.
  all: rewrite (proj2 (includes_true _ _) Hsa), (proj2 (includes_true _ _) Hst).
  all: cbn [negb orb andb].
  all: destruct (Z.eqb_spec (indexOf (storageOrder st) a)
                            (indexOf (storageOrder st) t)) as [Heq|Hne].
  all: first [ rewrite decide_True by eauto using indexOf_inj; by destruct st
             | by rewrite decide_False by congruence ].
Qed.

(** Case 2: the target is the storage container, and case 1 does not
    apply. *)
Lemma resolveMove_container v a st :
  a ≠ "" → ¬ (a ∈ storageOrder st ∧ "storage" ∈ storageOrder st) →
  resolveMove v a "storage" st
  = mkApp (items st)
          (if decide (a ∈ storageOrder st) then storageOrder st
           else storageOrder st ++ [a])
          (clearSlots a (slots st))
          (newName st) (newIcon st) (newDesc st) (newStats st).
Proof.
  intros Ha Hcase. unfold_handler.
  all: rewrite truthy_nonempty by done.
  all: unfold includes.
  all: destruct (decide (a ∈ storageOrder st)) as [Hin|Hin].
  all: first [ rewrite (bool_decide_eq_true_2 _ Hin);
               by rewrite (bool_decide_eq_false_2 ("storage" ∈ storageOrder st))
                 by tauto
             | by rewrite (bool_decide_eq_false_2 _ Hin) ].
Qed.

(** Case 3, which only the storage-fixed prototype has: the target is a
    stored item and the active item is not stored. *)
Lemma resolveMove_insert a t st :
  a ≠ "" → t ≠ "" → t ≠ "storage" →
  t ∈ storageOrder st → a ∉ storageOrder st →
  resolveMove StorageFixedApp a t st
  = let i := Z.to_nat (indexOf (storageOrder st) t) in
    mkApp (items st)
          (take i (storageOrder st) ++ a :: drop i (storageOrder st))
          (clearSlots a (slots st))
          (newName st) (newIcon st) (newDesc st) (newStats st).
Proof.
  intros Ha Ht Hts Hst Hsa. unfold_handler.
  rewrite !truthy_nonempty by done.
  rewrite (proj2 (includes_false _ _) Hsa), (proj2 (includes_true _ _) Hst).
  rewrite bool_decide_eq_false_2 by done.
  cbn [negb orb andb fst snd]. cbn beta iota.
  cbn [items storageOrder slots newName newIcon newDesc newStats].
  rewrite filter_ne_absent by done.
  destruct (indexOf_member _ _ Hst) as (i & Hi & Hl & _).
  pose proof (lookup_lt_Some _ _ _ Hl).
  rewrite Hi.
  replace (Z.to_nat (0 `max` (Z.of_nat i `min` Z.of_nat (length (storageOrder st)))))
    with i by lia.
  by rewrite Nat2Z.id.
Qed.

(** The same gesture in [App.tsx]: there is no such case, the gesture
    falls through to the slot test. *)
Lemma resolveMove_onto_stored_item_tooltip a t st :
  a ≠ "" → t ≠ "" → t ≠ "storage" → t ∉ SLOT_IDS →
  t ∈ storageOrder st → a ∉ storageOrder st →
  resolveMove TooltipHoverApp a t st = st.
Proof.
  intros Ha Ht Hts Hslot Hst Hsa. unfold_handler.
  rewrite !truthy_nonempty by done.
  rewrite (proj2 (includes_false _ _) Hsa), (proj2 (includes_true _ _) Hst).
  rewrite bool_decide_eq_false_2 by done.
  rewrite (proj2 (isSlotId_false _) Hslot). done.
Qed.

(** Case 4: the target is a slot and not a stored item. *)
Lemma resolveMove_equip v a t st :
  a ≠ "" → t ∈ SLOT_IDS → t ∉ storageOrder st →
  resolveMove v a t st
  = mkApp (items st)
          (storageAfterEquip (storageOrder st) (slots st !! t) a)
          (<[t := a]> (clearSlots a (slots st)))
          (newName st) (newIcon st) (newDesc st) (newStats st).
Proof.
  intros Ha Hslot Hst.
  assert (t ≠ "") as Ht by (intros ->; by apply isSlotId_true in Hslot).
  assert (t ≠ "storage") as Hts by (intros ->; by apply storage_not_slot).
  unfold_handler.
  all: rewrite !truthy_nonempty by done.
  all: rewrite (proj2 (includes_false _ _) Hst).
  all: rewrite bool_decide_eq_false_2 by done.
  all: rewrite (proj2 (isSlotId_true _) Hslot).
  all: rewrite andb_false_r; cbn [negb orb].
  all: unfold storageAfterEquip.
  all: destruct (truthy_opt (slots st !! t)
                 && negb (includes (storageOrder st) (default "" (slots st !! t))));
    destruct (includes (storageOrder st) a); reflexivity.
Qed.

(** Any other target is ignored. *)
Lemma resolveMove_unknown v a t st :
  t ∉ storageOrder st → t ≠ "storage" → t ∉ SLOT_IDS →
  resolveMove v a t st = st.
Proof.
  intros Hst Hts Hslot.
  destruct (decide (a = "")) as [->|Ha]; [apply resolveMove_falsy; by left|].
  destruct (decide (t = "")) as [->|Ht]; [apply resolveMove_falsy; by right|].
  unfold_handler.
  all: rewrite !truthy_nonempty by done.
  all: rewrite (proj2 (includes_false _ _) Hst).
  all: rewrite bool_decide_eq_false_2 by done.
  all: rewrite (proj2 (isSlotId_false _) Hslot).
  all: by rewrite andb_false_r.
Qed.

(** [handleDragEnd] never touches the [items] cell nor the form. *)
Lemma resolveMove_items v a t st : items (resolveMove v a t st) = items st.
Proof.
  unfold_handler.
  all: repeat (match goal with
               | |- context [if ?b then _ else _] => destruct b
               end; cbn); reflexivity.
Qed.
End transitions.

(** ** Moving items: the four cases *)

Section moves.
Implicit Types (st : AppState) (a t x y k : string) (v : Prototype).

Lemma position_lookup st x :
  x ∈ storageOrder st → storageOrder st !! position st x = Some x.
Proof. intros Hx. by apply indexOf_lookup. Qed.

Lemma indexOf_position st x :
  x ∈ storageOrder st →
  indexOf (storageOrder st) x = Z.of_nat (position st x).
Proof.
  intros [H0 _]%indexOf_lookup. unfold position. lia.
Qed.

Lemma lookup_insert_at {A} (l : list A) (i : nat) (x : A) :
  (i ≤ length l)%nat → (take i l ++ x :: drop i l) !! i = Some x.
Proof.
  intros Hi. rewrite lookup_app_r by (rewrite length_take; lia).
  rewrite length_take. by replace (i - i `min` length l)%nat with 0%nat by lia.
Qed.

Lemma lookup_insert_at_next {A} (l : list A) (i : nat) (x : A) :
  (i ≤ length l)%nat → (take i l ++ x :: drop i l) !! S i = l !! i.
Proof.
  intros Hi. rewrite lookup_app_r by (rewrite length_take; lia).
  rewrite length_take.
  replace (S i - i `min` length l)%nat with 1%nat by lia.
  change ((x :: drop i l) !! 1%nat) with (drop i l !! 0%nat).
  rewrite lookup_drop. f_equal. lia.
Qed.

(** C2, as the code has it.  When [activeId] and [targetId] are stored at
    distinct positions, [resolveMove] takes [activeId] out and puts it back
    at the index [targetId] had before the removal: [activeId] ends at
    that index, the stored ids are the same up to order, and the slots and
    the catalog are untouched; dropping a stored item onto itself changes
    nothing. *)
Theorem reorder_within_storage v a t st :
  a ≠ "" → t ≠ "" →
  a ∈ storageOrder st → t ∈ storageOrder st →
  let st' := resolveMove v a t st in
  let i := position st a in
  let j := position st t in
  (a ≠ t →
     storageOrder st'
     = take j (delete i (storageOrder st))
       ++ a :: drop j (delete i (storageOrder st))
     ∧ storageOrder st' !! j = Some a
     ∧ storageOrder st' ≡ₚ storageOrder st)
  ∧ (a = t → st' = st)
  ∧ slots st' = slots st
  ∧ items st' = items st.
Proof.
  intros Ha Ht Hsa Hst st' i j. subst st'.
  rewrite resolveMove_reorder by done.
  destruct (decide (a = t)) as [->|Hne].
  { repeat split; done. }
  cbn [storageOrder slots items].
  rewrite (indexOf_position _ _ Hsa), (indexOf_position _ _ Hst).
  pose proof (position_lookup _ _ Hsa) as Hi.
  pose proof (lookup_lt_Some _ _ _ (position_lookup _ _ Hst)) as Hj.
  fold i in Hi |- *. fold j in Hj |- *.
  repeat split; try done.
  - by apply arrayMove_in_range.
  - by apply arrayMove_lookup.
  - by eapply arrayMove_Permutation.
Qed.

(** C3.  In the equip case (the target is a slot identifier and not a
    stored id), [resolveMove] appends the displaced occupant of the slot
    to the tail of the storage order when there is one and it is not
    stored yet, clears the active item from every slot, sets the target
    slot to it, and removes it from the storage order if it was there.  So
    equipping [a] into a slot holding another item [y] leaves [y] at the
    tail of storage, the slot holding [a], and [a] out of storage. *)
Theorem equip_displaces v a t st :
  a ≠ "" → t ∈ SLOT_IDS → t ∉ storageOrder st →
  let st' := resolveMove v a t st in
  let s := storageOrder st in
  (* the displaced occupant *)
  (∀ y, slots st !! t = Some y → y ≠ "" → y ∉ s → a ∉ s →
        storageOrder st' = s ++ [y])
  ∧ (∀ y, slots st !! t = Some y → y ≠ "" → y ∉ s → a ∈ s →
          storageOrder st' = filter (λ x, x ≠ a) s ++ [y])
  ∧ ((slots st !! t = None ∨ slots st !! t = Some ""
      ∨ ∃ y, slots st !! t = Some y ∧ y ∈ s) →
     storageOrder st' = if decide (a ∈ s) then filter (λ x, x ≠ a) s else s)
  (* the slots *)
  ∧ slots st' !! t = Some a
  ∧ (∀ k, k ∈ SLOT_IDS → k ≠ t → slots st' !! k ≠ Some a)
  ∧ (∀ k y, k ≠ t → y ≠ a → slots st' !! k = Some y ↔ slots st !! k = Some y)
  (* the active item leaves storage *)
  ∧ (a ∈ s → a ∉ storageOrder st')
  ∧ items st' = items st
  (* displacement *)
  ∧ (∀ y, slots st !! t = Some y → y ≠ "" → y ≠ a → y ∉ s →
          (∃ pre, storageOrder st' = pre ++ [y])
          ∧ slots st' !! t = Some a
          ∧ a ∉ storageOrder st').
Proof.
  intros Ha Hslot Hst st' s. subst st'.
  rewrite resolveMove_equip by done.
  cbn [storageOrder slots items]. fold s.
  assert (∀ y, slots st !! t = Some y → y ≠ "" → y ∉ s →
               storageAfterEquip s (slots st !! t) a
               = if decide (a ∈ s) then filter (λ x, x ≠ a) (s ++ [y])
                 else s ++ [y]) as Hdisp.
  { intros y Hy Hy0 Hys. unfold storageAfterEquip. rewrite Hy. cbn.
    rewrite truthy_nonempty by done.
    rewrite (proj2 (includes_false _ _) Hys). cbn.
    unfold includes. by destruct (decide (a ∈ s)) as [Hin|Hin];
      [rewrite (bool_decide_eq_true_2 _ Hin)
      |rewrite (bool_decide_eq_false_2 _ Hin)]. }
  assert (∀ y, y ∉ s → a ∈ s →
               filter (λ x, x ≠ a) (s ++ [y]) = filter (λ x, x ≠ a) s ++ [y])
    as Hfilter.
  { intros y Hys Has. rewrite filter_app.
    rewrite filter_cons_True by (intros ->; done). done. }
  split_and!.
  - intros y Hy Hy0 Hys Has. rewrite (Hdisp y) by done.
    by rewrite decide_False.
  - intros y Hy Hy0 Hys Has. rewrite (Hdisp y) by done.
    rewrite decide_True by done. by apply Hfilter.
  - intros Hnone. unfold storageAfterEquip.
    assert (truthy_opt (slots st !! t)
            && negb (includes s (default "" (slots st !! t))) = false) as ->.
    { destruct Hnone as [-> | [-> | (y & -> & Hy)]]; [done|done|].
      cbn. rewrite (proj2 (includes_true _ _) Hy). apply andb_false_r. }
    unfold includes. by destruct (decide (a ∈ s)) as [Hin|Hin];
      [rewrite (bool_decide_eq_true_2 _ Hin)
      |rewrite (bool_decide_eq_false_2 _ Hin)].
  - apply lookup_insert_eq.
  - intros k Hk Hkt. rewrite lookup_insert_ne by done.
    by apply clearSlots_cleared.
  - intros k y Hkt Hya. rewrite lookup_insert_ne by done.
    by apply clearSlots_other.
  - intros Has. unfold storageAfterEquip.
    rewrite (proj2 (includes_true _ _) Has). apply filter_ne_gone.
  - done.
  - intros y Hy Hy0 Hya Hys. rewrite (Hdisp y) by done.
    split_and!.
    + destruct (decide (a ∈ s)); [|by eexists].
      rewrite Hfilter by done. by eexists.
    + apply lookup_insert_eq.
    + destruct (decide (a ∈ s)) as [Hin|Hin]; [apply filter_ne_gone|].
      rewrite elem_of_app, list_elem_of_singleton. intros [?|?]; congruence.
Qed.

(** C4.  A drop onto the storage container (no stored item carries the
    container's identifier) clears the active item from every slot; it is
    appended to the tail of the storage order if it was not stored, and the
    storage order is left as it is if it was. *)
Theorem drop_onto_container v a st :
  a ≠ "" → "storage" ∉ storageOrder st →
  let st' := resolveMove v a "storage" st in
  (∀ k, k ∈ SLOT_IDS → slots st' !! k ≠ Some a)
  ∧ (∀ k y, y ≠ a → slots st' !! k = Some y ↔ slots st !! k = Some y)
  ∧ (a ∉ storageOrder st → storageOrder st' = storageOrder st ++ [a])
  ∧ (a ∈ storageOrder st → storageOrder st' = storageOrder st)
  ∧ items st' = items st.
Proof.
  intros Ha Hres st'. subst st'.
  rewrite resolveMove_container by tauto.
  cbn [storageOrder slots items]. split_and!.
  - intros k Hk. by apply clearSlots_cleared.
  - intros k y Hy. by apply clearSlots_other.
  - intros Hin. by rewrite decide_False.
  - intros Hin. by rewrite decide_True.
  - done.
Qed.

(** C5 (storage-fixed prototype).  When the target is a stored item and
    the active item is not stored, [resolveMove] clears the active item
    from every slot and inserts it into the storage order at the index the
    target occupies, immediately before the target.
    [moveToStorageAtIndex] first removes the item from the order, so the
    item occurs once afterwards wherever it was before. *)
Theorem insert_before_stored_item a t st :
  a ≠ "" → t ≠ "" → t ≠ "storage" →
  t ∈ storageOrder st → a ∉ storageOrder st →
  let st' := resolveMove StorageFixedApp a t st in
  let j := position st t in
  storageOrder st' = take j (storageOrder st) ++ a :: drop j (storageOrder st)
  ∧ storageOrder st !! j = Some t
  ∧ storageOrder st' !! j = Some a
  ∧ storageOrder st' !! S j = Some t
  ∧ (∀ k, k ∈ SLOT_IDS → slots st' !! k ≠ Some a)
  ∧ (∀ k y, y ≠ a → slots st' !! k = Some y ↔ slots st !! k = Some y)
  ∧ items st' = items st
  ∧ (∀ (p : AppState) (toIndex : Z),
       let r := storageOrder (snd (StorageFixed.moveToStorageAtIndex a toIndex p)) in
       filter (λ x, x ≠ a) r = filter (λ x, x ≠ a) (storageOrder p)
       ∧ ∃ pre post, r = pre ++ a :: post ∧ (a ∉ pre) ∧ (a ∉ post)).
Proof.
  intros Ha Ht Hts Hst Hsa st' j. subst st'.
  rewrite resolveMove_insert by done.
  cbn [storageOrder slots items]. cbn zeta.
  fold (position st t). fold j.
  pose proof (position_lookup _ _ Hst) as Hj. fold j in Hj.
  pose proof (lookup_lt_Some _ _ _ Hj) as Hlt.
  split_and!.
  - done.
  - done.
  - apply lookup_insert_at. lia.
  - rewrite lookup_insert_at_next by lia. done.
  - intros k Hk. by apply clearSlots_cleared.
  - intros k y Hy. by apply clearSlots_other.
  - done.
  - intros p toIndex.
    unfold StorageFixed.moveToStorageAtIndex, setStorageOrder.
    cbn [snd storageOrder].
    set (w := filter (λ x, x ≠ a) (storageOrder p)).
    set (c := Z.to_nat _).
    assert (a ∉ w) as Hw by apply filter_ne_gone.
    split.
    + rewrite filter_app, filter_cons_False by tauto.
      rewrite <- filter_app, take_drop. by apply filter_ne_absent.
    + exists (take c w), (drop c w). split_and!; [done| |].
      * intros H%elem_of_take. apply Hw.
        destruct H as (i & H & _). by eapply list_elem_of_lookup_2.
      * intros H%list_elem_of_lookup. apply Hw.
        destruct H as (i & H). rewrite lookup_drop in H.
        by eapply list_elem_of_lookup_2.
Qed.

(** C10.  A move never changes the catalog: the [items] cell, hence every
    item's id, name, icon, description and stats, is the same afterwards,
    whatever the event carries. *)
Theorem move_preserves_catalog v (active over : option string) st :
  items (commit (handleDragEnd v active over) st) = items st
  ∧ (∀ a t, items (resolveMove v a t st) = items st
            ∧ catalogIds (resolveMove v a t st) = catalogIds st).
Proof.
  split.
  - destruct active as [a|], over as [t|];
      [apply resolveMove_items| by destruct v ..].
  - intros a t. unfold catalogIds. by rewrite resolveMove_items.
Qed.
End moves.

(** ** Removing and creating items *)

Section catalog.
Implicit Types (st : AppState) (x y k uuid : string) (v : Prototype).

Lemma remove_eq x st :
  remove x st
  = mkApp (filter (λ i, id i ≠ x) (items st))
          (filter (λ y, y ≠ x) (storageOrder st))
          (clearSlots x (slots st))
          (newName st) (newIcon st) (newDesc st) (newStats st).
Proof. reflexivity. Qed.

Lemma filter_id_absent x (l : list Item) :
  x ∉ id <$> l → filter (λ i, id i ≠ x) l = l.
Proof.
  induction l as [|i l IH]; [done|].
  rewrite fmap_cons. intros [Hne Hx]%not_elem_of_cons.
  rewrite filter_cons_True by congruence. by rewrite IH.
Qed.


Lemma addItem_blank v uuid st p :
  trim (newName st) = "" → addItem v uuid st p = (Normal (), p).
Proof.
  intros Hblank. destruct v; cbn; unfold StorageFixed.addItem, TooltipHover.addItem;
    by rewrite Hblank.
Qed.

Lemma addItem_named v uuid st :
  trim (newName st) ≠ "" →
  commit (addItem v uuid) st
  = mkApp (items st ++ [newItem v uuid st]) (storageOrder st ++ [uuid]) (slots st)
          "" ""
          (match v with StorageFixedApp => newDesc st | TooltipHoverApp => "" end)
          (match v with StorageFixedApp => newStats st | TooltipHoverApp => "" end).
Proof.
  intros Hname. apply truthy_nonempty in Hname.
  destruct v; unfold commit; cbn; unfold StorageFixed.addItem, TooltipHover.addItem;
    by rewrite Hname.
Qed.

(** C8, as the code has it.  [addItem] never fails: it completes normally
    whatever the form holds.  It leaves the state as it is exactly when the
    name is empty after trimming (its result does not depend on the
    identifier, none is drawn); otherwise it appends a new item carrying
    the drawn identifier to the catalog and that identifier to the tail of
    the storage order, and leaves the slots as they are. *)
Theorem create_guard v uuid st :
  let st' := commit (addItem v uuid) st in
  outcome (addItem v uuid) st = Normal ()
  ∧ (st' = st ↔ trim (newName st) = "")
  ∧ (trim (newName st) = "" → ∀ uuid', commit (addItem v uuid') st = st)
  ∧ (trim (newName st) ≠ "" →
     ∃ item, id item = uuid ∧ name item = trim (newName st)
             ∧ items st' = items st ++ [item]
             ∧ storageOrder st' = storageOrder st ++ [uuid]
             ∧ slots st' = slots st).
Proof.
  intros st'. subst st'.
  destruct (decide (trim (newName st) = "")) as [Hblank|Hname].
  - unfold commit, outcome. rewrite !addItem_blank by done. cbn.
    split_and!; [done|done| |done].
    intros _ uuid'. unfold commit. by rewrite addItem_blank.
  - rewrite addItem_named by done. split_and!.
    + unfold outcome. apply truthy_nonempty in Hname.
      destruct v; cbn; unfold StorageFixed.addItem, TooltipHover.addItem;
        by rewrite Hname.
    + split; [|done]. intros Heq. exfalso.
      apply (f_equal (λ s, length (storageOrder s))) in Heq.
      cbn in Heq. rewrite length_app in Heq. cbn in Heq. lia.
    + done.
    + intros _. exists (newItem v uuid st). by destruct v.
Qed.
End catalog.

(** ** The stats parser *)

Section stats.
Implicit Types (stats : gmap string StatValue) (pair k : string).

Lemma truthy_empty : truthy "" = false.
Proof. reflexivity. Qed.

Lemma split_nonempty sep s : split sep s ≠ [].
Proof.
  induction s as [|c s IH]; cbn; [done|].
  destruct (decide (c = sep)); [done|].
  by destruct (split sep s).
Qed.

(** A piece without the separator is not split. *)
Lemma split_without sep s : occursIn sep s = false → split sep s = [s].
Proof.
  induction s as [|c s IH]; cbn; [done|].
  intros [Hc Hs]%orb_false_iff. apply bool_decide_eq_false in Hc.
  rewrite decide_False by done. by rewrite (IH Hs).
Qed.

Lemma split_with sep s :
  occursIn sep s = true → (1 < length (split sep s))%nat.
Proof.
  induction s as [|c s IH]; cbn; [done|].
  destruct (decide (c = sep)) as [->|Hne].
  - intros _. pose proof (split_nonempty sep s).
    destruct (split sep s); [done|]. cbn. lia.
  - rewrite bool_decide_eq_false_2 by done. cbn. intros Hs%IH.
    destruct (split sep s); cbn in *; lia.
Qed.

(** The value is [undefined] exactly for a pair without ['=']. *)
Lemma pairValue_None pair : pairValue pair = None ↔ occursIn "=" pair = false.
Proof.
  unfold pairValue. rewrite list_lookup_fmap.
  destruct (occursIn "=" pair) eqn:Hoc.
  - apply split_with in Hoc.
    destruct (split "=" pair) as [|? [|? ?]]; cbn in *; [lia|lia|done].
  - by rewrite (split_without _ _ Hoc).
Qed.

(** A pair without ['='] is its own (untrimmed) key. *)
Lemma pairKey_bare pair : occursIn "=" pair = false → pairKey pair = trim pair.
Proof. intros H. unfold pairKey. by rewrite (split_without _ _ H). Qed.

Lemma parsePair_eq stats pair :
  parsePair stats pair
  = if truthy (pairKey pair)
    then assign stats (pairKey pair) (coerce (pairValue pair))
    else stats.
Proof.
  unfold parsePair, pairKey, pairValue.
  pose proof (split_nonempty "=" pair).
  by destruct (split "=" pair).
Qed.

Lemma parsePair_lookup stats pair k :
  parsePair stats pair !! k
  = if decide (pairKey pair = k ∧ k ≠ "" ∧ k ≠ "__proto__")
    then Some (coerce (pairValue pair))
    else stats !! k.
Proof.
  rewrite parsePair_eq. unfold assign.
  destruct (decide (pairKey pair = "")) as [Hk|Hk].
  - rewrite Hk, truthy_empty. rewrite decide_False; [done|]. intros (<- & ? & _). done.
  - rewrite truthy_nonempty by done.
    destruct (decide (pairKey pair = "__proto__")) as [Hp|Hp].
    + rewrite decide_False; [done|]. intros (<- & _ & ?). done.
    + destruct (decide (pairKey pair = k)) as [<-|Hne].
      * rewrite lookup_insert_eq. by rewrite decide_True.
      * rewrite lookup_insert_ne by done. rewrite decide_False; [done|]. tauto.
Qed.

Lemma foldl_parsePair_lookup (pairs : list string) stats k :
  foldl parsePair stats pairs !! k
  = match lastWithKey k pairs with
    | Some p => if decide (k = "" ∨ k = "__proto__") then stats !! k
                else Some (coerce (pairValue p))
    | None => stats !! k
    end.
Proof.
  unfold lastWithKey.
  induction pairs as [|p pairs IH] using rev_ind; [done|].
  rewrite foldl_app. cbn [foldl]. rewrite parsePair_lookup, IH, filter_app.
  destruct (decide (pairKey p = k)) as [Hk|Hk].
  - rewrite filter_cons_True by done. rewrite filter_nil, last_snoc.
    destruct (decide (k = "" ∨ k = "__proto__")) as [Hbad|Hok].
    + rewrite decide_False by tauto.
      by destruct (last (filter (λ p0, pairKey p0 = k) pairs)).
    + by rewrite decide_True by tauto.
  - rewrite filter_cons_False by done. rewrite filter_nil, app_nil_r.
    rewrite decide_False by tauto. done.
Qed.

Lemma foldl_parsePair_skip (pairs : list string) stats :
  foldl parsePair stats pairs
  = foldl parsePair stats (filter (λ p, pairKey p ≠ "") pairs).
Proof.
  revert stats. induction pairs as [|p pairs IH]; intros stats; [done|].
  cbn [foldl]. destruct (decide (pairKey p = "")) as [Hk|Hk].
  - rewrite filter_cons_False by tauto.
    rewrite parsePair_eq, Hk, truthy_empty. apply IH.
  - rewrite filter_cons_True by done. cbn [foldl]. apply IH.
Qed.

(** X19.  The entries of the parsed mapping.  The stats text is split on commas;
    the entry under a key is decided by the last pair carrying that key, and
    holds a number when the value text is numeric and the text itself
    otherwise.  The pairs skipped are those whose key is empty after
    trimming (and those whose key is ["__proto__"]): they leave the mapping
    as it is, and the result is the one obtained without them. *)
Theorem parseStats_entries text :
  (∀ k, parseStats text !! k
        = if decide (k = "" ∨ k = "__proto__") then None
          else (λ p, coerce (pairValue p)) <$> lastWithKey k (split "," text))
  ∧ (∀ k p vtxt, k ≠ "" → k ≠ "__proto__" →
       lastWithKey k (split "," text) = Some p → pairValue p = Some vtxt →
       parseStats text !! k
       = Some (if isNumericString vtxt then SNumber vtxt else SString vtxt))
  ∧ (∀ stats pair, pairKey pair = "" → parsePair stats pair = stats)
  ∧ parseStats text
    = foldl parsePair ∅ (filter (λ p, pairKey p ≠ "") (split "," text))
  ∧ (∀ k, is_Some (parseStats text !! k) →
          ∃ p, p ∈ split "," text ∧ pairKey p = k ∧ k ≠ "").
Proof.
  assert (∀ k, parseStats text !! k
        = if decide (k = "" ∨ k = "__proto__") then None
          else (λ p, coerce (pairValue p)) <$> lastWithKey k (split "," text))
    as Hchar.
  { intros k. unfold parseStats. rewrite foldl_parsePair_lookup.
    rewrite lookup_empty.
    destruct (lastWithKey k (split "," text)); by case_decide. }
  split_and!.
  - done.
  - intros k p vtxt Hk Hp Hlast Hv. rewrite Hchar.
    rewrite decide_False by tauto. rewrite Hlast. cbn. by rewrite Hv.
  - intros stats pair Hk. rewrite parsePair_eq. by rewrite Hk, truthy_empty.
  - apply foldl_parsePair_skip.
  - intros k [val Hval]. rewrite Hchar in Hval.
    case_decide as Hk; [done|].
    unfold lastWithKey in Hval.
    destruct (last _) as [p|] eqn:Hlast; [|done].
    apply last_Some_elem_of, list_elem_of_filter in Hlast as [Hp Hin].
    exists p. split_and!; [done|done|tauto].
Qed.
End stats.

(** ** Invariants of the reachable states *)

Section invariants.
Implicit Types (st : AppState) (a t x y k uuid : string) (v : Prototype).

(** The equip case of [App.tsx] is also taken when the target, a slot
    identifier, is a stored id and the active item is not stored. *)
Lemma resolveMove_equip_tooltip a t st :
  a ≠ "" → t ∈ SLOT_IDS → ¬ (a ∈ storageOrder st ∧ t ∈ storageOrder st) →
  resolveMove TooltipHoverApp a t st
  = mkApp (items st)
          (storageAfterEquip (storageOrder st) (slots st !! t) a)
          (<[t := a]> (clearSlots a (slots st)))
          (newName st) (newIcon st) (newDesc st) (newStats st).
Proof.
  intros Ha Hslot Hcase.
  assert (t ≠ "") as Ht by (intros ->; by apply isSlotId_true in Hslot).
  assert (t ≠ "storage") as Hts by (intros ->; by apply storage_not_slot).
  unfold_handler.
  rewrite !truthy_nonempty by done.
  assert (includes (storageOrder st) a && includes (storageOrder st) t = false)
    as ->.
  { apply andb_false_iff. unfold includes.
    rewrite !bool_decide_eq_false.
    destruct (decide (a ∈ storageOrder st)); [right|left]; tauto. }
  rewrite bool_decide_eq_false_2 by done.
  rewrite (proj2 (isSlotId_true _) Hslot). cbn [negb orb].
  unfold storageAfterEquip.
  destruct (truthy_opt (slots st !! t)
            && negb (includes (storageOrder st) (default "" (slots st !! t))));
    destruct (includes (storageOrder st) a); reflexivity.
Qed.

(** The shapes of the state a move commits. *)
Lemma resolveMove_cases v a t st :
  let s := storageOrder st in
  resolveMove v a t st = st
  ∨ (a ∈ s ∧ t ∈ s ∧ a ≠ t
     ∧ resolveMove v a t st
       = mkApp (items st) (arrayMove s (indexOf s a) (indexOf s t)) (slots st)
               (newName st) (newIcon st) (newDesc st) (newStats st))
  ∨ (a ≠ ""
     ∧ resolveMove v a t st
       = mkApp (items st) (if decide (a ∈ s) then s else s ++ [a])
               (clearSlots a (slots st))
               (newName st) (newIcon st) (newDesc st) (newStats st))
  ∨ (a ≠ "" ∧ t ∈ s ∧ (a ∉ s)
     ∧ resolveMove v a t st
       = mkApp (items st) (take (position st t) s ++ a :: drop (position st t) s)
               (clearSlots a (slots st))
               (newName st) (newIcon st) (newDesc st) (newStats st))
  ∨ (a ≠ "" ∧ t ∈ SLOT_IDS
     ∧ resolveMove v a t st
       = mkApp (items st) (storageAfterEquip s (slots st !! t) a)
               (<[t := a]> (clearSlots a (slots st)))
               (newName st) (newIcon st) (newDesc st) (newStats st)).
Proof.
  intros s.
  destruct (decide (a = "")) as [->|Ha]; [left; apply resolveMove_falsy; by left|].
  destruct (decide (t = "")) as [->|Ht]; [left; apply resolveMove_falsy; by right|].
  destruct (decide (a ∈ s)) as [Hsa|Hsa], (decide (t ∈ s)) as [Hst|Hst].
  - (* both stored *)
    pose proof (resolveMove_reorder v a t st Ha Ht Hsa Hst) as Heq.
    destruct (decide (a = t)); [by left|]. right; left. done.
  - (* active stored, target not *)
    destruct (decide (t = "storage")) as [->|Hts].
    { right; right; left. split; [done|].
      rewrite resolveMove_container by tauto. by case_decide. }
    destruct (decide (t ∈ SLOT_IDS)) as [Hslot|Hslot].
    + do 4 right. split_and!; [done..|]. by apply resolveMove_equip.
    + left. by apply resolveMove_unknown.
  - (* target stored, active not *)
    destruct (decide (t = "storage")) as [->|Hts].
    { right; right; left. split; [done|].
      rewrite resolveMove_container by tauto. by case_decide. }
    destruct v.
    + do 3 right; left. split_and!; [done..|]. by apply resolveMove_insert.
    + destruct (decide (t ∈ SLOT_IDS)) as [Hslot|Hslot].
      * do 4 right. split_and!; [done..|]. apply resolveMove_equip_tooltip; tauto.
      * left. by apply resolveMove_onto_stored_item_tooltip.
  - (* neither stored *)
    destruct (decide (t = "storage")) as [->|Hts].
    { right; right; left. split; [done|].
      rewrite resolveMove_container by tauto. by case_decide. }
    destruct (decide (t ∈ SLOT_IDS)) as [Hslot|Hslot].
    + do 4 right. split_and!; [done..|]. by apply resolveMove_equip.
    + left. by apply resolveMove_unknown.
Qed.

Lemma create_cases v uuid name icon desc statsText st :
  (items (create v uuid name icon desc statsText st) = items st
   ∧ storageOrder (create v uuid name icon desc statsText st) = storageOrder st
   ∧ slots (create v uuid name icon desc statsText st) = slots st)
  ∨ (∃ item, id item = uuid
       ∧ items (create v uuid name icon desc statsText st) = items st ++ [item]
       ∧ storageOrder (create v uuid name icon desc statsText st)
         = storageOrder st ++ [uuid]
       ∧ slots (create v uuid name icon desc statsText st) = slots st).
Proof.
  unfold create.
  set (st1 := fillForm name icon desc statsText st).
  destruct (decide (trim (newName st1) = "")) as [Hblank|Hname].
  - left. unfold commit. by rewrite addItem_blank.
  - right. rewrite addItem_named by done.
    exists (newItem v uuid st1). by destruct v.
Qed.

Lemma displaced_elem (s : list string) (r : option string) x :
  x ∈ (if truthy_opt r && negb (includes s (default "" r))
       then s ++ [default "" r] else s)
  ↔ x ∈ s ∨ (r = Some x ∧ x ≠ "").
Proof.
  destruct r as [y|]; cbn.
  - destruct (decide (y = "")) as [->|Hy].
    + rewrite truthy_empty. cbn. split; [tauto|].
      intros [?|[ [= <-] ?] ]; done.
    + rewrite truthy_nonempty by done. cbn. unfold includes.
      destruct (decide (y ∈ s)) as [Hys|Hys].
      * rewrite (bool_decide_eq_true_2 _ Hys). cbn. split; [tauto|].
        intros [?|[ [= ->] _] ]; done.
      * rewrite (bool_decide_eq_false_2 _ Hys). cbn.
        rewrite elem_of_app, list_elem_of_singleton. split.
        -- intros [?| ->]; [by left|by right].
        -- intros [?|[ [= ->] _] ]; tauto.
  - split; [tauto|]. intros [?|[? _]]; done.
Qed.

Lemma storageAfterEquip_elem (s : list string) (r : option string) a x :
  x ∈ storageAfterEquip s r a
  ↔ (x ∈ s ∨ (r = Some x ∧ x ≠ "")) ∧ (a ∈ s → x ≠ a).
Proof.
  unfold storageAfterEquip.
  destruct (includes s a) eqn:Has;
    [apply includes_true in Has|apply includes_false in Has].
  - rewrite list_elem_of_filter, displaced_elem. tauto.
  - rewrite displaced_elem. tauto.
Qed.

Lemma storageAfterEquip_NoDup s (r : option string) a :
  NoDup s → NoDup (storageAfterEquip s r a).
Proof.
  intros Hs. unfold storageAfterEquip.
  assert (NoDup (if truthy_opt r && negb (includes s (default "" r))
                 then s ++ [default "" r] else s)) as Hs1.
  { destruct (truthy_opt r); cbn; [|done].
    destruct (includes s (default "" r)) eqn:Hin; cbn; [done|].
    apply includes_false in Hin.
    apply NoDup_app. split_and!; [done| |apply NoDup_singleton].
    intros x Hx ->%list_elem_of_singleton. done. }
  destruct (includes s a); [by apply NoDup_filter|done].
Qed.
End invariants.

Section preservation.
Implicit Types (st : AppState) (a t x y k uuid : string) (v : Prototype)
  (m : gmap string string).

Lemma slotsWellFormed_empty : slotsWellFormed ∅.
Proof.
  split_and!; intros *; rewrite ?lookup_empty; try done.
Qed.

Lemma slotsWellFormed_clear a m : slotsWellFormed m → slotsWellFormed (clearSlots a m).
Proof.
  intros (Hinj & Hkeys & Htruthy). split_and!.
  - intros k1 k2 x H1%clearSlots_Some H2%clearSlots_Some. eauto.
  - intros k [x Hx%clearSlots_Some]. eauto.
  - intros k Hk%clearSlots_Some. by eapply Htruthy.
Qed.

Lemma slotsWellFormed_equip a t m :
  a ≠ "" → t ∈ SLOT_IDS →
  slotsWellFormed m → slotsWellFormed (<[t := a]> (clearSlots a m)).
Proof.
  intros Ha Ht Hwf.
  pose proof (slotsWellFormed_clear a m Hwf) as (Hinj & Hkeys & Htruthy).
  assert (∀ k, k ≠ t → clearSlots a m !! k ≠ Some a) as Hcleared.
  { intros k Hk Hx. apply (clearSlots_cleared a m k); [|done]. eauto. }
  split_and!.
  - intros k1 k2 x. rewrite !lookup_insert.
    repeat case_decide; subst; intros H1 H2; simplify_eq; try done.
    + by destruct (Hcleared k2).
    + by destruct (Hcleared k1).
    + eauto.
  - intros k. rewrite lookup_insert. case_decide; subst; eauto.
  - intros k. rewrite lookup_insert. case_decide; [congruence|eauto].
Qed.

Lemma storeInvariant_noDuplication st : storeInvariant st → noDuplication st.
Proof. intros (Hs & Hinj & _). by split. Qed.

Lemma storeInvariant_init : storeInvariant initialState.
Proof. split; [apply NoDup_nil_2|apply slotsWellFormed_empty]. Qed.

Lemma storeInvariant_create v uuid name icon desc statsText st :
  freshId uuid st → storeInvariant st →
  storeInvariant (create v uuid name icon desc statsText st).
Proof.
  intros (_ & Hfresh & _) (Hs & Hm). unfold storeInvariant.
  destruct (create_cases v uuid name icon desc statsText st)
    as [(_ & -> & ->)|(item & _ & _ & -> & ->)]; [done|].
  split; [|done].
  apply NoDup_app. split_and!; [done| |apply NoDup_singleton].
  intros x Hx ->%list_elem_of_singleton. done.
Qed.

Lemma storeInvariant_remove x st :
  storeInvariant st → storeInvariant (remove x st).
Proof.
  intros (Hs & Hm). rewrite remove_eq. split; cbn.
  - by apply NoDup_filter.
  - by apply slotsWellFormed_clear.
Qed.

Lemma NoDup_insert_at (s : list string) a (j : nat) :
  a ∉ s → NoDup s → NoDup (take j s ++ a :: drop j s).
Proof.
  intros Ha Hs.
  assert (take j s ++ a :: drop j s ≡ₚ a :: s) as ->.
  { rewrite <- Permutation_middle. by rewrite take_drop. }
  by apply NoDup_cons.
Qed.

Lemma storeInvariant_move v a t st :
  storeInvariant st → storeInvariant (resolveMove v a t st).
Proof.
  intros (Hs & Hm). unfold storeInvariant.
  destruct (resolveMove_cases v a t st)
    as [-> | [(Hsa & Hst & Hne & ->) | [(Ha & ->) | [(Ha & Hst & Hsa & ->)
       | (Ha & Hslot & ->)]]]]; cbn [storageOrder slots].
  - done.
  - split; [|done].
    rewrite (indexOf_position _ _ Hsa), (indexOf_position _ _ Hst).
    rewrite arrayMove_Permutation; [done|by apply position_lookup|].
    eapply lookup_lt_Some. by apply position_lookup.
  - split; [|by apply slotsWellFormed_clear].
    case_decide; [done|].
    apply NoDup_app. split_and!; [done| |apply NoDup_singleton].
    intros x Hx ->%list_elem_of_singleton. done.
  - split; [|by apply slotsWellFormed_clear]. by apply NoDup_insert_at.
  - split; [by apply storageAfterEquip_NoDup|by apply slotsWellFormed_equip].
Qed.

Lemma reachable_storeInvariant v st : reachable v st → storeInvariant st.
Proof.
  induction 1 as [|st uuid name icon desc statsText _ IH Hfresh
                  |st x _ IH|st a t _ IH].
  - apply storeInvariant_init.
  - by apply storeInvariant_create.
  - by apply storeInvariant_remove.
  - by apply storeInvariant_move.
Qed.

(** C6.  In every reachable state the storage order holds no id twice and
    no id is held by two slots. *)
Theorem reachable_noDuplication v st : reachable v st → noDuplication st.
Proof.
  intros H. apply storeInvariant_noDuplication. by eapply reachable_storeInvariant.
Qed.

Lemma reachableNoSelfDrop_reachable v st : reachableNoSelfDrop v st → reachable v st.
Proof. induction 1; by constructor. Qed.

Lemma oneItemState_eq v :
  storageOrder (oneItemState v) = ["item-1"]
  ∧ catalogIds (oneItemState v) = ["item-1"]
  ∧ slots (oneItemState v) = ∅.
Proof. by destruct v. Qed.

Lemma equippedState_eq v :
  storageOrder (equippedState v) = []
  ∧ catalogIds (equippedState v) = ["item-1"]
  ∧ slots (equippedState v) = {["head" := "item-1"]}.
Proof. destruct v; vm_compute; done. Qed.

Lemma selfDropState_eq v :
  storageOrder (selfDropState v) = ["item-1"]
  ∧ catalogIds (selfDropState v) = ["item-1"]
  ∧ slots (selfDropState v) = {["head" := "item-1"]}.
Proof. destruct v; vm_compute; done. Qed.

(** C1 at the gesture the claim singles out.  Create an item, equip it into
    the head slot, then drop it onto the head slot again: the state is
    reachable, the item is still held by the head slot, and [handleDragEnd]
    has appended it to the storage order as the displaced occupant, so it is
    equipped and stored at once. *)
Theorem self_drop_breaks_partition v :
  reachable v (selfDropState v)
  ∧ partitioned (equippedState v)
  ∧ slots (equippedState v) !! "head" = Some "item-1"
  ∧ equipped (selfDropState v) "item-1"
  ∧ stored (selfDropState v) "item-1"
  ∧ ¬ partitioned (selfDropState v).
Proof.
  destruct (equippedState_eq v) as (Hs1 & Hc1 & Hm1).
  destruct (selfDropState_eq v) as (Hs2 & Hc2 & Hm2).
  assert (equipped (selfDropState v) "item-1") as Heq.
  { exists "head". split; [by apply isSlotId_true|]. by rewrite Hm2. }
  assert (stored (selfDropState v) "item-1") as Hst.
  { unfold stored. rewrite Hs2. apply list_elem_of_singleton. done. }
  split_and!.
  - do 2 constructor. constructor; [constructor|].
    split_and!; cbn; [apply not_elem_of_nil..|]. intros k. by rewrite lookup_empty.
  - intros x. rewrite Hc1. intros ->%list_elem_of_singleton. split.
    + left. exists "head". split; [by apply isSlotId_true|]. by rewrite Hm1.
    + intros [_ H]. unfold stored in H. rewrite Hs1 in H. by apply elem_of_nil in H.
  - by rewrite Hm1.
  - done.
  - done.
  - intros Hpart. destruct (Hpart "item-1") as [_ Hnot].
    + rewrite Hc2. by apply list_elem_of_singleton.
    + by apply Hnot.
Qed.
End preservation.

(** ** The partition without self-drops *)

Section partition.
Implicit Types (st : AppState) (a t x y k uuid : string) (v : Prototype)
  (m : gmap string string).

Lemma elem_of_insert_at (s : list string) a (j : nat) x :
  x ∈ take j s ++ a :: drop j s ↔ x ∈ s ∨ x = a.
Proof.
  rewrite elem_of_app, elem_of_cons.
  assert (x ∈ s ↔ x ∈ take j s ∨ x ∈ drop j s) as ->.
  { by rewrite <- elem_of_app, take_drop. }
  tauto.
Qed.

(** Sending the active item to storage: cases 2 and 3. *)
Lemma partitioned_unequip st a (s' : list string) n1 n2 n3 n4 :
  (∀ x, x ∈ s' ↔ x ∈ storageOrder st ∨ x = a) →
  partitioned st →
  partitioned (mkApp (items st) s' (clearSlots a (slots st)) n1 n2 n3 n4).
Proof.
  intros Hs' Hpart x Hx. specialize (Hpart x Hx).
  unfold equipped, equippedIn, stored in *. cbn [slots storageOrder] in *.
  rewrite Hs'.
  destruct (decide (x = a)) as [->|Hxa].
  - split; [by right; right|].
    intros [(k & Hk & Hheld) _]. by apply (clearSlots_cleared a (slots st) k).
  - assert ((∃ k, k ∈ SLOT_IDS ∧ clearSlots a (slots st) !! k = Some x)
            ↔ ∃ k, k ∈ SLOT_IDS ∧ slots st !! k = Some x) as ->.
    { split; intros (k & Hk & Hheld); exists k; split; try done;
        by apply (clearSlots_other a (slots st) k x Hxa). }
    tauto.
Qed.

(** Equipping into a slot that does not hold the active item: case 4. *)
Lemma partitioned_equip st a t n1 n2 n3 n4 :
  a ≠ "" → t ∈ SLOT_IDS → slots st !! t ≠ Some a →
  slotsWellFormed (slots st) → partitioned st →
  partitioned (mkApp (items st)
                     (storageAfterEquip (storageOrder st) (slots st !! t) a)
                     (<[t := a]> (clearSlots a (slots st))) n1 n2 n3 n4).
Proof.
  intros Ha Ht Hself (Hinj & Hkeys & Htruthy) Hpart x Hx.
  specialize (Hpart x Hx).
  unfold equipped, equippedIn, stored in *. cbn [slots storageOrder] in *.
  rewrite storageAfterEquip_elem.
  destruct (decide (x = a)) as [->|Hxa].
  - split.
    + left. exists t. split; [done|]. apply lookup_insert_eq.
    + intros [_ [[Has|[Hheld _]] Hne]]; [by apply Hne|done].
  - assert ((∃ k, k ∈ SLOT_IDS ∧ <[t:=a]> (clearSlots a (slots st)) !! k = Some x)
            ↔ ∃ k, k ∈ SLOT_IDS ∧ k ≠ t ∧ slots st !! k = Some x) as ->.
    { split.
      - intros (k & Hk & Hheld). exists k.
        destruct (decide (k = t)) as [->|Hkt].
        + rewrite lookup_insert_eq in Hheld. congruence.
        + rewrite lookup_insert_ne in Hheld by done.
          split_and!; [done..|]. by eapply clearSlots_other.
      - intros (k & Hk & Hkt & Hheld). exists k. split; [done|].
        rewrite lookup_insert_ne by done. by apply clearSlots_other. }
    destruct (decide (slots st !! t = Some x)) as [Hdisp|Hdisp].
    + (* [x] is the displaced occupant *)
      assert (x ∉ storageOrder st) as Hxs.
      { intros Hxs. apply (proj2 Hpart). split; [|done]. by exists t. }
      split.
      * right. split; [|done]. right. split; [done|].
        intros ->. by apply (Htruthy t).
      * intros [(k & Hk & Hkt & Hheld) _]. apply Hkt. by eapply Hinj.
    + assert ((∃ k, k ∈ SLOT_IDS ∧ k ≠ t ∧ slots st !! k = Some x)
              ↔ ∃ k, k ∈ SLOT_IDS ∧ slots st !! k = Some x) as ->.
      { split; [intros (k & ? & ? & ?); by exists k|].
        intros (k & Hk & Hheld). exists k. split_and!; [done| |done].
        intros ->. done. }
      destruct Hpart as [Hone Hnot]. split.
      * destruct Hone as [?|?]; [by left|right]. split; [by left|done].
      * intros [Heq [[Hs|[? _]] _]]; [|done]. by apply Hnot.
Qed.

Lemma partitioned_move v a t st :
  slots st !! t ≠ Some a →
  storeInvariant st → partitioned st →
  partitioned (resolveMove v a t st).
Proof.
  intros Hself (Hs & Hm) Hpart.
  destruct (resolveMove_cases v a t st)
    as [-> | [(Hsa & Hst & Hne & ->) | [(Ha & ->) | [(Ha & Hst & Hsa & ->)
       | (Ha & Hslot & ->)]]]].
  - done.
  - intros x Hx. specialize (Hpart x Hx).
    unfold equipped, equippedIn, stored in *. cbn [slots storageOrder] in *.
    rewrite (indexOf_position _ _ Hsa), (indexOf_position _ _ Hst).
    rewrite arrayMove_Permutation; [done|by apply position_lookup|].
    eapply lookup_lt_Some. by apply position_lookup.
  - apply partitioned_unequip; [|done]. intros x.
    case_decide; [|rewrite elem_of_app, list_elem_of_singleton; tauto].
    split; [tauto|]. intros [?| ->]; done.
  - apply partitioned_unequip; [|done]. intros x. apply elem_of_insert_at.
  - by apply partitioned_equip.
Qed.

Lemma partitioned_create v uuid name icon desc statsText st :
  freshId uuid st → partitioned st →
  partitioned (create v uuid name icon desc statsText st).
Proof.
  intros (Hcat & Hsto & Hslots) Hpart.
  destruct (create_cases v uuid name icon desc statsText st)
    as [(Hi & Hs & Hm)|(item & Hid & Hi & Hs & Hm)];
    intros x; unfold catalogIds, equipped, equippedIn, stored;
    rewrite Hi, Hs, Hm.
  - apply Hpart.
  - rewrite fmap_app. change (id <$> [item]) with [id item].
    rewrite Hid, !elem_of_app, !list_elem_of_singleton.
    intros [Hx| ->].
    + destruct (Hpart x Hx) as [Hone Hnot]. split; [tauto|].
      intros [Heq [Hst| ->]]; [tauto|]. by apply Hcat.
    + split; [by right; right|].
      intros [(k & _ & Hheld) _]. by apply (Hslots k).
Qed.

Lemma partitioned_remove x st : partitioned st → partitioned (remove x st).
Proof.
  intros Hpart y. rewrite remove_eq.
  unfold catalogIds, equipped, equippedIn, stored.
  cbn [items slots storageOrder].
  rewrite list_elem_of_fmap. intros (i & -> & [Hne Hi]%list_elem_of_filter).
  destruct (Hpart (id i)) as [Hone Hnot].
  { apply list_elem_of_fmap. by exists i. }
  unfold equipped, equippedIn, stored in *.
  rewrite list_elem_of_filter.
  assert ((∃ k, k ∈ SLOT_IDS ∧ clearSlots x (slots st) !! k = Some (id i))
          ↔ ∃ k, k ∈ SLOT_IDS ∧ slots st !! k = Some (id i)) as ->.
  { split; intros (k & Hk & Hheld); exists k; split; try done;
      by apply (clearSlots_other x (slots st) k (id i) Hne). }
  tauto.
Qed.

(** The partition holds along every run without a self-drop: dropping an
    item onto the slot that holds it is the only gesture that breaks it. *)
Theorem partition_without_self_drop v st :
  reachableNoSelfDrop v st → partitioned st.
Proof.
  induction 1 as [|st uuid name icon desc statsText _ IH Hfresh
                  |st x _ IH|st a t Hreach IH Hself].
  - intros x Hx. by apply elem_of_nil in Hx.
  - by apply partitioned_create.
  - by apply partitioned_remove.
  - apply partitioned_move; [done| |done].
    by apply (reachable_storeInvariant v), reachableNoSelfDrop_reachable.
Qed.
End partition.

(** ** The order of the two storage updaters of the equip case *)

(** X5.  The equip case enqueues up to two updaters of the storage order: the
    append of the displaced occupant, from inside the slots updater, and the
    filter of the equipped item.  Whichever runs first, the storage order
    committed is the same. *)
Lemma equip_updaters_commute (s : list string) (replaced : option string) a :
  let append := λ prev : list string,
    if truthy_opt replaced && negb (includes s (default "" replaced))
    then prev ++ [default "" replaced] else prev in
  let remove := λ prev : list string,
    if includes s a then filter (λ x, x ≠ a) prev else prev in
  remove (append s) = storageAfterEquip s replaced a
  ∧ append (remove s) = storageAfterEquip s replaced a.
Proof.
  cbn zeta. unfold storageAfterEquip. split; [done|].
  destruct (truthy_opt replaced && negb (includes s (default "" replaced)))
    eqn:Happ; [|done].
  destruct (includes s a) eqn:Has; [|done].
  apply andb_true_iff in Happ as [_ Hnot%negb_true_iff].
  apply includes_false in Hnot. apply includes_true in Has.
  rewrite filter_app. rewrite filter_cons_True; [done|].
  intros Heq. rewrite Heq in Hnot. done.
Qed.

(** ** The claims at concrete states *)

(** C2 at the scenario of the specification: dropping [a] onto [c] in
    [[a; b; c]] gives [[b; c; a]], not [[b; a; c]], which is what reinserting
    at the index after the removal would give. *)
Lemma reorder_scenario_counterexample :
  storageOrder (resolveMove StorageFixedApp "a" "c" abcState) = ["b"; "c"; "a"]
  ∧ storageOrder (resolveMove TooltipHoverApp "a" "c" abcState) = ["b"; "c"; "a"]
  ∧ moveToPostRemovalIndex (storageOrder abcState) "a" "c" = ["b"; "a"; "c"]
  ∧ storageOrder (resolveMove StorageFixedApp "a" "c" abcState)
    ≠ moveToPostRemovalIndex (storageOrder abcState) "a" "c"
  ∧ storageOrder (resolveMove TooltipHoverApp "a" "c" abcState)
    ≠ moveToPostRemovalIndex (storageOrder abcState) "a" "c".
Proof. split_and!; vm_compute; done. Qed.

Lemma reorder_within_storage_witness :
  ("a" ≠ "" ∧ "c" ≠ "" ∧ "a" ∈ storageOrder abcState ∧ "c" ∈ storageOrder abcState)
  ∧ storageOrder (resolveMove StorageFixedApp "a" "c" abcState) !! 2%nat = Some "a"
  ∧ slots (resolveMove StorageFixedApp "a" "c" abcState) = slots abcState.
Proof.
  assert ("a" ∈ storageOrder abcState) as Ha by by_decide.
  assert ("c" ∈ storageOrder abcState) as Hc by by_decide.
  split; [by split_and!|].
  destruct (reorder_within_storage StorageFixedApp "a" "c" abcState)
    as (Hmove & _ & Hslots & _); [done..|].
  split; [|exact Hslots].
  destruct Hmove as (_ & Hat & _); [done|]. exact Hat.
Defined.

Lemma equip_displaces_witness :
  ("shield" ≠ "" ∧ "mainHand" ∈ SLOT_IDS ∧ "mainHand" ∉ storageOrder swordInHand)
  ∧ storageOrder (resolveMove TooltipHoverApp "shield" "mainHand" swordInHand)
    = ["sword"]
  ∧ slots (resolveMove TooltipHoverApp "shield" "mainHand" swordInHand) !! "mainHand"
    = Some "shield".
Proof.
  assert ("mainHand" ∈ SLOT_IDS) as Hslot by by_decide.
  assert ("mainHand" ∉ storageOrder swordInHand) as Hns by by_decide.
  split; [by split_and!|].
  destruct (equip_displaces TooltipHoverApp "shield" "mainHand" swordInHand)
    as (_ & Hdisp & _ & Hheld & _); [done..|].
  split; [|exact Hheld].
  rewrite (Hdisp "sword"); [reflexivity|reflexivity|done|by_decide|by_decide].
Defined.

Lemma drop_onto_container_witness :
  ("sword" ≠ "" ∧ "storage" ∉ storageOrder swordInHand)
  ∧ storageOrder (resolveMove StorageFixedApp "sword" "storage" swordInHand)
    = ["shield"; "sword"]
  ∧ slots (resolveMove StorageFixedApp "sword" "storage" swordInHand) !! "mainHand"
    ≠ Some "sword".
Proof.
  assert ("storage" ∉ storageOrder swordInHand) as Hns by by_decide.
  split; [by split_and!|].
  destruct (drop_onto_container StorageFixedApp "sword" swordInHand)
    as (Hcleared & _ & Happ & _); [done..|].
  split; [apply Happ; by_decide|apply Hcleared; by_decide].
Defined.

Lemma insert_before_stored_item_witness :
  ("sword" ≠ "" ∧ "shield" ≠ "" ∧ "shield" ≠ "storage"
   ∧ "shield" ∈ storageOrder swordInHandPotion
   ∧ "sword" ∉ storageOrder swordInHandPotion)
  ∧ storageOrder (resolveMove StorageFixedApp "sword" "shield" swordInHandPotion)
    = ["potion"; "sword"; "shield"].
Proof.
  assert ("shield" ∈ storageOrder swordInHandPotion) as Hin by by_decide.
  assert ("sword" ∉ storageOrder swordInHandPotion) as Hout by by_decide.
  split; [by split_and!|].
  destruct (insert_before_stored_item "sword" "shield" swordInHandPotion)
    as (Hins & _); [done..|].
  rewrite Hins. reflexivity.
Defined.

(** C5 at [App.tsx].  The sword is in the main hand, the shield is stored
    and is not a slot identifier: the claim has the sword unequipped and
    inserted before the shield, but the handler of [App.tsx] has no case for
    this drop and commits the state it found, the sword still in the main
    hand and absent from storage. *)
Lemma insert_absent_in_tooltip_counterexample :
  "shield" ∈ storageOrder swordInHandPotion
  ∧ ("sword" ∉ storageOrder swordInHandPotion)
  ∧ resolveMove TooltipHoverApp "sword" "shield" swordInHandPotion
    = swordInHandPotion
  ∧ slots (resolveMove TooltipHoverApp "sword" "shield" swordInHandPotion)
      !! "mainHand" = Some "sword"
  ∧ storageOrder (resolveMove TooltipHoverApp "sword" "shield" swordInHandPotion)
    = ["potion"; "shield"]
  ∧ storageOrder (resolveMove TooltipHoverApp "sword" "shield" swordInHandPotion)
    ≠ ["potion"; "sword"; "shield"].
Proof.
  split_and!; [by_decide|by_decide|reflexivity|reflexivity|reflexivity|].
  vm_compute. done.
Qed.

Lemma reachable_noDuplication_witness :
  reachable StorageFixedApp (equippedState StorageFixedApp)
  ∧ noDuplication (equippedState StorageFixedApp).
Proof.
  assert (reachable StorageFixedApp (equippedState StorageFixedApp)) as Hreach.
  { constructor. constructor; [constructor|].
    split_and!; cbn; [apply not_elem_of_nil..|]. intros k. by rewrite lookup_empty. }
  split; [exact Hreach|].
  exact (reachable_noDuplication StorageFixedApp _ Hreach).
Defined.

(** C8 at a blank name: the handler returns normally, nothing is thrown. *)
Lemma blank_name_counterexample :
  trim (newName blankForm) = ""
  ∧ outcome (addItem TooltipHoverApp "item-1") blankForm = Normal ()
  ∧ outcome (addItem TooltipHoverApp "item-1") blankForm ≠ Throw "ValidationError"
  ∧ outcome (addItem StorageFixedApp "item-1") blankForm = Normal ()
  ∧ outcome (addItem StorageFixedApp "item-1") blankForm ≠ Throw "ValidationError"
  ∧ commit (addItem TooltipHoverApp "item-1") blankForm = blankForm.
Proof. split_and!; vm_compute; done. Qed.

(** C9 at a pair without ['='].  The pair [speed] of the text
    [attack=5,speed] has no ['='] and a non-empty key: the claim has it
    skipped, [addItem] stores the key [speed], bound to [undefined], so the
    mapping differs from the one parsed without the pair. *)
Theorem bare_key_is_stored :
  split "," "attack=5,speed" = ["attack=5"; "speed"]
  ∧ occursIn "=" "speed" = false
  ∧ pairKey "speed" = "speed"
  ∧ parseStats "attack=5,speed" !! "speed" = Some SUndefined
  ∧ parseStats "attack=5,speed" ≠ parseStats "attack=5"
  ∧ (λ i, stats i !! "speed")
      <$> items (create TooltipHoverApp "item-1" "Boots" "" "" "attack=5,speed"
                        initialState)
    = [Some SUndefined].
Proof.
  split_and!; [reflexivity|reflexivity|reflexivity|by vm_compute| |by vm_compute].
  intros Heq. apply (f_equal (λ o, o !! "speed")) in Heq.
  vm_compute in Heq. done.
Qed.

(** The stats text of the form placeholder, and values of each kind. *)
Example parseStats_placeholder :
  parseStats "attack=5, defense=2" !! "attack" = Some (SNumber "5")
  ∧ parseStats "attack=5, defense=2" !! "defense" = Some (SNumber "2")
  ∧ parseStats "rarity= epic ,weight=1.5e1,,=3" !! "rarity" = Some (SString "epic")
  ∧ parseStats "rarity= epic ,weight=1.5e1,,=3" !! "weight" = Some (SNumber "1.5e1")
  ∧ parseStats "rarity= epic ,weight=1.5e1,,=3" !! "" = None
  ∧ parseStats "a=1,a=x" !! "a" = Some (SString "x")
  ∧ parseStats "a=" !! "a" = Some (SNumber "").
Proof. split_and!; by vm_compute. Qed.

(** The scenarios of the specification with the sword and the shield. *)
Example sword_shield_scenario v :
  let st0 := mkApp [mkItem "sword" "Sword" None None ∅;
                    mkItem "shield" "Shield" None None ∅]
                   ["sword"; "shield"] ∅ "" "" "" "" in
  let st1 := resolveMove v "sword" "mainHand" st0 in
  let st2 := resolveMove v "shield" "mainHand" st1 in
  let st3 := resolveMove v "shield" "offHand" st1 in
  (slots st1 !! "mainHand" = Some "sword" ∧ storageOrder st1 = ["shield"])
  ∧ (slots st2 !! "mainHand" = Some "shield" ∧ storageOrder st2 = ["sword"])
  ∧ (slots (remove "shield" st3) !! "offHand" = None
     ∧ storageOrder (remove "shield" st3) = []
     ∧ catalogIds (remove "shield" st3) = ["sword"]).
Proof. destruct v; split_and!; by vm_compute. Qed.

(** ** Further properties of the moves *)

Section more_moves.
Implicit Types (st : AppState) (a t x y k : string) (v : Prototype).

(** X1.  An event without an active id or without a target ([undefined] or the
    empty string) commits the state it found, in both prototypes. *)
Theorem move_requires_gesture v (active over : option string) st :
  truthy_opt active = false ∨ truthy_opt over = false →
  commit (handleDragEnd v active over) st = st.
Proof.
  intros H. destruct active as [a|], over as [t|]; try (by destruct v).
  apply (resolveMove_falsy v a t st).
  destruct H as [H|H]; [left|right]; cbn in H;
    apply negb_false_iff, bool_decide_eq_true in H; done.
Qed.

(** X2.  A target that is neither a stored id, nor the storage container, nor a
    slot identifier is ignored. *)
Theorem unknown_target_ignored v a t st :
  t ∉ storageOrder st → t ≠ "storage" → t ∉ SLOT_IDS →
  resolveMove v a t st = st.
Proof. apply resolveMove_unknown. Qed.

(** X3.  In [App.tsx] an item that is not stored, dropped onto a stored item
    that is not named like a slot, stays where it is: nothing changes. *)
Theorem tooltip_ignores_drop_on_stored_item a t st :
  a ≠ "" → t ≠ "" → t ≠ "storage" → t ∉ SLOT_IDS →
  t ∈ storageOrder st → a ∉ storageOrder st →
  resolveMove TooltipHoverApp a t st = st.
Proof. apply resolveMove_onto_stored_item_tooltip. Qed.

(** X4.  The two prototypes commit the same state for every gesture but the
    drop of an item that is not stored onto a stored item. *)
Theorem prototypes_agree a t st :
  (t ∈ storageOrder st → a ∈ storageOrder st ∨ t = "storage") →
  resolveMove TooltipHoverApp a t st = resolveMove StorageFixedApp a t st.
Proof.
  intros H. unfold_handler.
  destruct (negb (truthy a) || negb (truthy t)); [done|].
  destruct (includes (storageOrder st) a) eqn:Ha; cbn [andb].
  - destruct (includes (storageOrder st) t); [done|].
    by destruct (bool_decide (t = "storage")).
  - destruct (bool_decide (t = "storage")) eqn:Hts; [done|].
    destruct (includes (storageOrder st) t) eqn:Ht; [|done].
    apply includes_true in Ht. apply includes_false in Ha.
    apply bool_decide_eq_false in Hts. destruct (H Ht); done.
Qed.

Lemma present_after_move v a t st x :
  present (resolveMove v a t st) x → x = a ∨ present st x.
Proof.
  unfold present, equipped, equippedIn, stored.
  destruct (resolveMove_cases v a t st)
    as [-> | [(Hsa & Hst & Hne & ->) | [(Ha & ->) | [(Ha & Hst & Hsa & ->)
       | (Ha & Hslot & ->)]]]]; cbn [storageOrder slots].
  - tauto.
  - rewrite (indexOf_position _ _ Hsa), (indexOf_position _ _ Hst).
    rewrite arrayMove_Permutation; [tauto|by apply position_lookup|].
    eapply lookup_lt_Some. by apply position_lookup.
  - intros [(k & Hk & Hheld%clearSlots_Some)|Hin]; [right; left; eauto|].
    case_decide; [tauto|].
    apply elem_of_app in Hin as [?|Hin]; [tauto|].
    apply list_elem_of_singleton in Hin. tauto.
  - intros [(k & Hk & Hheld%clearSlots_Some)|Hin]; [right; left; eauto|].
    apply elem_of_insert_at in Hin. tauto.
  - intros [(k & Hk & Hheld)|Hin].
    + destruct (decide (k = t)) as [->|Hkt].
      * rewrite lookup_insert_eq in Hheld. left. congruence.
      * rewrite lookup_insert_ne in Hheld by done.
        apply clearSlots_Some in Hheld. right; left; eauto.
    + apply storageAfterEquip_elem in Hin as [[Hin|[Hdisp _]] _]; [tauto|].
      right; left. by exists t.
Qed.

Lemma present_before_move v a t st x :
  x ≠ "" → present st x → present (resolveMove v a t st) x.
Proof.
  intros Hx. unfold present, equipped, equippedIn, stored.
  destruct (resolveMove_cases v a t st)
    as [-> | [(Hsa & Hst & Hne & ->) | [(Ha & ->) | [(Ha & Hst & Hsa & ->)
       | (Ha & Hslot & ->)]]]]; cbn [storageOrder slots].
  - tauto.
  - rewrite (indexOf_position _ _ Hsa), (indexOf_position _ _ Hst).
    rewrite arrayMove_Permutation; [tauto|by apply position_lookup|].
    eapply lookup_lt_Some. by apply position_lookup.
  - assert (x ∈ (if decide (a ∈ storageOrder st) then storageOrder st
                 else storageOrder st ++ [a])
            ↔ x ∈ storageOrder st ∨ x = a) as ->.
    { case_decide; [|rewrite elem_of_app, list_elem_of_singleton; tauto].
      split; [tauto|]. intros [?| ->]; done. }
    destruct (decide (x = a)) as [->|Hxa]; [tauto|].
    intros [(k & Hk & Hheld)|Hin]; [left|tauto].
    exists k. split; [done|]. by apply clearSlots_other.
  - rewrite elem_of_insert_at.
    destruct (decide (x = a)) as [->|Hxa]; [tauto|].
    intros [(k & Hk & Hheld)|Hin]; [left|tauto].
    exists k. split; [done|]. by apply clearSlots_other.
  - rewrite storageAfterEquip_elem.
    destruct (decide (x = a)) as [->|Hxa].
    { intros _. left. exists t. split; [done|]. apply lookup_insert_eq. }
    intros [(k & Hk & Hheld)|Hin]; [|right; tauto].
    destruct (decide (k = t)) as [->|Hkt]; [right; tauto|].
    left. exists k. split; [done|].
    rewrite lookup_insert_ne by done. by apply clearSlots_other.
Qed.

(** X6.  A move loses no id and brings in none but the active one: a non-empty
    id that a slot held or storage listed is still held or listed
    afterwards, and an id held or listed afterwards was so before, or is the
    active id. *)
Theorem move_keeps_every_id v a t st x :
  x ≠ "" →
  (present st x → present (resolveMove v a t st) x)
  ∧ (present (resolveMove v a t st) x → x = a ∨ present st x).
Proof.
  intros Hx. split; [by apply present_before_move|apply present_after_move].
Qed.

Lemma clearSlots_idemp a (m : gmap string string) :
  clearSlots a (clearSlots a m) = clearSlots a m.
Proof. apply clearSlots_absent. intros k Hk. by apply clearSlots_cleared. Qed.

(** X7.  Dropping an item onto the storage container a second time changes
    nothing more. *)
Theorem container_drop_idempotent v a st :
  a ≠ "" → a ≠ "storage" → "storage" ∉ storageOrder st →
  resolveMove v a "storage" (resolveMove v a "storage" st)
  = resolveMove v a "storage" st.
Proof.
  intros Ha Has Hres.
  rewrite (resolveMove_container v a st) by tauto.
  set (s1 := if decide (a ∈ storageOrder st) then storageOrder st
             else storageOrder st ++ [a]).
  assert (a ∈ s1) as Hin.
  { subst s1. case_decide; [done|]. apply elem_of_app. right.
    by apply list_elem_of_singleton. }
  assert ("storage" ∉ s1) as Hres1.
  { subst s1. case_decide; [done|]. rewrite elem_of_app, list_elem_of_singleton.
    intros [?|?]; [done|congruence]. }
  rewrite resolveMove_container; cbn [storageOrder slots items newName newIcon
    newDesc newStats]; [|done|tauto].
  rewrite decide_True by done. by rewrite clearSlots_idemp.
Qed.

(** X8.  The state left by dropping an equipped item onto its own slot, where
    the item is equipped and stored, is put right by dropping the item onto
    the storage container: the result is the one of dropping it there in the
    first place. *)
Theorem self_drop_then_container v a t st :
  a ≠ "" → a ≠ "storage" → t ∈ SLOT_IDS →
  slots st !! t = Some a →
  a ∉ storageOrder st → t ∉ storageOrder st → "storage" ∉ storageOrder st →
  resolveMove v a "storage" (resolveMove v a t st)
  = resolveMove v a "storage" st.
Proof.
  intros Ha Has Hslot Hheld Hsa Hst Hres.
  rewrite (resolveMove_equip v a t st) by done.
  assert (storageAfterEquip (storageOrder st) (slots st !! t) a
          = storageOrder st ++ [a]) as ->.
  { unfold storageAfterEquip. rewrite Hheld. cbn.
    rewrite truthy_nonempty by done.
    by rewrite (proj2 (includes_false _ _) Hsa). }
  assert ("storage" ∉ storageOrder st ++ [a]) as Hres1.
  { rewrite elem_of_app, list_elem_of_singleton. intros [?|?]; [done|congruence]. }
  rewrite (resolveMove_container v a st) by tauto.
  rewrite resolveMove_container; cbn [storageOrder slots items newName newIcon
    newDesc newStats]; [|done|tauto].
  rewrite decide_True by (apply elem_of_app; right; by apply list_elem_of_singleton).
  rewrite decide_False by done. f_equal.
  apply map_eq. intros k. rewrite !clearSlots_lookup.
  destruct (decide (k = t)) as [->|Hkt].
  - rewrite lookup_insert_eq. rewrite !decide_True by done. done.
  - rewrite lookup_insert_ne by done. rewrite clearSlots_lookup.
    repeat case_decide; try done; tauto.
Qed.
End more_moves.

(** ** Removing, creating, and what runs keep *)

Section more_catalog.
Implicit Types (st start : AppState) (a t x y k uuid : string) (v : Prototype).

Lemma clearSlots_comm x y (m : gmap string string) :
  clearSlots x (clearSlots y m) = clearSlots y (clearSlots x m).
Proof.
  apply map_eq. intros k. rewrite !clearSlots_lookup.
  repeat case_decide; try done; naive_solver.
Qed.

(** X9.  Removing an id twice is removing it once, and two removals can be done
    in either order. *)
Theorem remove_idempotent_commutes x y st :
  remove x (remove x st) = remove x st
  ∧ remove x (remove y st) = remove y (remove x st).
Proof.
  rewrite !remove_eq. cbn [items storageOrder slots newName newIcon newDesc newStats].
  split.
  - rewrite list_filter_filter_r by done.
    rewrite (list_filter_filter_r (λ y, y ≠ x)) by done.
    by rewrite clearSlots_idemp.
  - rewrite !list_filter_filter.
    rewrite (list_filter_iff _ (λ i, id i ≠ y ∧ id i ≠ x)) by tauto.
    rewrite (list_filter_iff (λ z, z ≠ x ∧ z ≠ y) (λ z, z ≠ y ∧ z ≠ x)) by tauto.
    by rewrite clearSlots_comm.
Qed.

(** X10.  Removing the item just created gives back the catalog, the storage
    order and the slots there were before the creation. *)
Theorem create_then_remove v uuid name icon desc statsText st :
  freshId uuid st →
  let st' := remove uuid (create v uuid name icon desc statsText st) in
  items st' = items st
  ∧ storageOrder st' = storageOrder st
  ∧ slots st' = slots st.
Proof.
  intros (Hcat & Hsto & Hslots) st'. subst st'. rewrite remove_eq.
  cbn [items storageOrder slots].
  destruct (create_cases v uuid name icon desc statsText st)
    as [(-> & -> & ->)|(item & Hid & -> & -> & ->)].
  - rewrite filter_id_absent, filter_ne_absent by done.
    by rewrite clearSlots_absent by (intros; apply Hslots).
  - rewrite !filter_app, filter_id_absent, filter_ne_absent by done.
    rewrite filter_cons_False by (intros H; by apply H).
    rewrite filter_cons_False by (intros H; by apply H).
    rewrite !filter_nil, !app_nil_r.
    by rewrite clearSlots_absent by (intros; apply Hslots).
Qed.

Lemma reachable_run v st : reachable v st ↔ run v anyMove initialState st.
Proof.
  split; induction 1; try (by constructor).
Qed.

Lemma run_storeInvariant v allowed start st :
  storeInvariant start → run v allowed start st → storeInvariant st.
Proof.
  intros H0. induction 1 as [|st uuid name icon desc statsText _ IH Hfresh
                             |st x _ IH|st a t _ IH _].
  - done.
  - by apply storeInvariant_create.
  - by apply storeInvariant_remove.
  - by apply storeInvariant_move.
Qed.

(** X11.  From any starting state without duplicates and with well-formed slots,
    for instance a loaded snapshot, every run keeps the storage order free
    of duplicates and the slots well formed: no id in two slots, no key
    besides the five slot identifiers, no slot holding the empty string. *)
Theorem run_keeps_store_invariant v allowed start st :
  storeInvariant start → run v allowed start st →
  NoDup (storageOrder st) ∧ slotsWellFormed (slots st).
Proof. apply run_storeInvariant. Qed.

(** X12.  From any partitioned starting state with the store invariant, every run
    that never drops an item onto the slot holding it keeps every catalog
    item either equipped or stored, and not both. *)
Theorem run_keeps_partition v start st :
  storeInvariant start → partitioned start →
  run v noSelfDrop start st → partitioned st.
Proof.
  intros Hinv H0 Hrun.
  induction Hrun as [|st uuid name icon desc statsText Hrun IH Hfresh
                     |st x _ IH|st a t Hrun IH Hself].
  - done.
  - by apply partitioned_create.
  - by apply partitioned_remove.
  - apply partitioned_move; [done| |done].
    by apply (run_storeInvariant v noSelfDrop start).
Qed.
End more_catalog.

(** ** The catalog along runs, and the projections *)

Section catalog_runs.
Implicit Types (st start : AppState) (a t x y k uuid : string) (v : Prototype).

Lemma trimEnd_idemp s : trimEnd (trimEnd s) = trimEnd s.
Proof.
  induction s as [|c s IH]; [done|]. cbn.
  destruct (trimEnd s) as [|c' s'] eqn:Hs.
  - destruct (isWhiteSpace c) eqn:Hc; [done|]. cbn. by rewrite Hc.
  - cbn in IH |- *. by rewrite IH.
Qed.

Lemma trimStart_head s :
  match trimStart s with
  | EmptyString => True
  | String c _ => isWhiteSpace c = false
  end.
Proof.
  induction s as [|c s IH]; [done|]. cbn.
  destruct (isWhiteSpace c) eqn:Hc; [done|]. done.
Qed.

Lemma trimEnd_head s :
  match s with
  | EmptyString => True
  | String c _ => isWhiteSpace c = false
  end →
  match trimEnd s with
  | EmptyString => True
  | String c _ => isWhiteSpace c = false
  end.
Proof.
  destruct s as [|c s]; [done|]. cbn. intros Hc.
  destruct (trimEnd s); [by rewrite Hc|done].
Qed.

Lemma trimStart_fixed s :
  match s with
  | EmptyString => True
  | String c _ => isWhiteSpace c = false
  end → trimStart s = s.
Proof. destruct s as [|c s]; [done|]. cbn. by intros ->. Qed.

Lemma trim_idemp s : trim (trim s) = trim s.
Proof.
  unfold trim.
  rewrite (trimStart_fixed (trimEnd (trimStart s))).
  - apply trimEnd_idemp.
  - apply trimEnd_head, trimStart_head.
Qed.

Lemma catalogIds_remove x st :
  catalogIds (remove x st) = filter (λ y, y ≠ x) (catalogIds st).
Proof.
  rewrite remove_eq. unfold catalogIds. cbn [items].
  induction (items st) as [|i l IH]; [done|].
  rewrite fmap_cons. destruct (decide (id i = x)) as [Hi|Hi].
  - rewrite filter_cons_False by tauto.
    by rewrite (filter_cons_False _ (id i)) by tauto.
  - rewrite filter_cons_True by done.
    rewrite fmap_cons, (filter_cons_True _ (id i)) by done. by rewrite IH.
Qed.

(** X13.  When the starting state has no two catalog items with the same id, no
    state of a run has: created ids are new, moves leave the catalog alone,
    removals only take items out. *)
Theorem run_keeps_catalog_ids_unique v allowed start st :
  NoDup (catalogIds start) → run v allowed start st → NoDup (catalogIds st).
Proof.
  intros H0. induction 1 as [|st uuid name icon desc statsText _ IH Hfresh
                             |st x _ IH|st a t _ IH _].
  - done.
  - destruct Hfresh as (Hcat & _).
    destruct (create_cases v uuid name icon desc statsText st)
      as [(Hi & _)|(item & Hid & Hi & _)]; unfold catalogIds in *; rewrite Hi.
    + done.
    + rewrite fmap_app. change (id <$> [item]) with [id item]. rewrite Hid.
      apply NoDup_app. split_and!; [done| |apply NoDup_singleton].
      intros y Hy ->%list_elem_of_singleton. done.
  - rewrite catalogIds_remove. by apply NoDup_filter.
  - unfold catalogIds in *. by rewrite resolveMove_items.
Qed.

(** X14.  Every item a run creates has a non-empty name without white space
    around it: when the items of the starting state have, all items of
    every later state have. *)
Theorem run_keeps_names_trimmed v allowed start st :
  namesTrimmed start → run v allowed start st → namesTrimmed st.
Proof.
  intros H0. induction 1 as [|st uuid nm ic ds statsText _ IH Hfresh
                             |st x _ IH|st a t _ IH _]; intros i.
  - apply H0.
  - unfold create. set (st1 := fillForm nm ic ds statsText st).
    destruct (decide (trim (newName st1) = "")) as [Hblank|Hname].
    + unfold commit. rewrite addItem_blank by done. apply IH.
    + rewrite addItem_named by done. cbn [items].
      intros [Hi| ->%list_elem_of_singleton]%elem_of_app; [by apply IH|].
      cbn [name newItem]. split; [done|apply trim_idemp].
  - rewrite remove_eq. cbn [items].
    intros [_ Hi]%list_elem_of_filter. by apply IH.
  - rewrite resolveMove_items. apply IH.
Qed.

Lemma present_remove x st y : present (remove x st) y → y ≠ x ∧ present st y.
Proof.
  rewrite remove_eq. unfold present, equipped, equippedIn, stored.
  cbn [slots storageOrder].
  intros [(k & Hk & Hheld)|[Hne Hin]%list_elem_of_filter]; [|tauto].
  split.
  - intros ->. by apply (clearSlots_cleared x (slots st) k).
  - left. exists k. split; [done|]. by eapply clearSlots_Some.
Qed.

(** X15.  When moves only name catalog items, as the rendered draggables do,
    every id held by a slot or listed in storage keeps naming a catalog
    item. *)
Theorem run_keeps_references v start st :
  referencesInCatalog start →
  run v catalogMove start st → referencesInCatalog st.
Proof.
  intros H0. induction 1 as [|st uuid name icon desc statsText _ IH Hfresh
                             |st x _ IH|st a t _ IH Hmove]; intros y Hy.
  - by apply H0.
  - unfold equipped, equippedIn, stored, catalogIds in *.
    destruct (create_cases v uuid name icon desc statsText st)
      as [(Hi & Hs & Hm)|(item & Hid & Hi & Hs & Hm)];
      rewrite Hi; rewrite Hs, Hm in Hy.
    + by apply IH.
    + rewrite fmap_app, elem_of_app. change (id <$> [item]) with [id item].
      rewrite Hid, list_elem_of_singleton.
      destruct Hy as [Hy|[Hy|Hy%list_elem_of_singleton]%elem_of_app];
        [left; apply IH; by left|left; apply IH; by right|by right].
  - apply present_remove in Hy as [Hne Hy].
    rewrite catalogIds_remove. apply list_elem_of_filter. split; [done|].
    by apply IH.
  - unfold catalogIds. rewrite resolveMove_items.
    destruct (present_after_move v a t st y Hy) as [->|Hpre]; [done|by apply IH].
Qed.

(** X16.  [handleDragEnd] does not look the active id up in the catalog: a
    non-empty id that names no item, dropped onto the storage container, is
    appended to the storage order, which then lists an id without an
    item. *)
Theorem stale_id_is_stored v a st :
  a ≠ "" → a ∉ catalogIds st → a ∉ storageOrder st →
  let st' := resolveMove v a "storage" st in
  storageOrder st' = storageOrder st ++ [a]
  ∧ (a ∉ catalogIds st')
  ∧ ¬ referencesInCatalog st'.
Proof.
  intros Ha Hcat Hsto st'. subst st'.
  rewrite resolveMove_container by tauto.
  unfold catalogIds. cbn [storageOrder items]. rewrite decide_False by done.
  split_and!; [done..|].
  intros Href. apply Hcat. apply (Href a). right.
  unfold stored. cbn. apply elem_of_app. right. by apply list_elem_of_singleton.
Qed.

Lemma findItem_Some (its : list Item) x i :
  findItem its x = Some i → id i = x ∧ i ∈ its.
Proof.
  unfold findItem. intros ([j i'] & Hfind & ->)%fmap_Some. cbn.
  apply list_find_Some in Hfind as (Hl & Hid & _).
  split; [done|]. by eapply list_elem_of_lookup_2.
Qed.

Lemma findItem_None (its : list Item) x :
  findItem its x = None ↔ x ∉ id <$> its.
Proof.
  unfold findItem. rewrite fmap_None, list_find_None, Forall_forall.
  rewrite list_elem_of_fmap. split.
  - intros H (i & -> & Hi). by apply (H i).
  - intros H i Hi Hid. apply H. by exists i.
Qed.

(** X17.  The storage list shows the stored ids that name a catalog item, in the
    storage order, each with an item of that id; a stored id without an
    item is passed over.  When every stored id names an item, the list shows
    exactly the storage order. *)
Theorem storageItems_ids st :
  id <$> storageItems st
  = filter (λ x, x ∈ catalogIds st) (storageOrder st)
  ∧ (∀ i, i ∈ storageItems st → i ∈ items st ∧ id i ∈ storageOrder st)
  ∧ (referencesInCatalog st → id <$> storageItems st = storageOrder st).
Proof.
  unfold storageItems, catalogIds.
  assert (id <$> omap (findItem (items st)) (storageOrder st)
          = filter (λ x, x ∈ id <$> items st) (storageOrder st)) as Hids.
  { induction (storageOrder st) as [|x s IH]; [done|]. cbn [omap list_omap].
    destruct (findItem (items st) x) as [i|] eqn:Hfind.
    - apply findItem_Some in Hfind as [Hid Hi].
      rewrite filter_cons_True.
      + rewrite fmap_cons. by rewrite IH, Hid.
      + apply list_elem_of_fmap. by exists i.
    - apply findItem_None in Hfind. by rewrite filter_cons_False. }
  split_and!.
  - done.
  - intros i (x & Hx & Hfind)%list_elem_of_omap.
    apply findItem_Some in Hfind as [<- Hi]. done.
  - intros Href. rewrite Hids.
    assert (∀ x, x ∈ storageOrder st → x ∈ id <$> items st) as Hall.
    { intros x Hx. apply Href. by right. }
    revert Hall. generalize (storageOrder st). intros s.
    induction s as [|x s IH]; intros Hall; [done|].
    rewrite filter_cons_True by (apply Hall; by left).
    f_equal. apply IH. intros y Hy. apply Hall. by right.
Qed.

(** X18.  A slot renders an item exactly when it holds a non-empty id; the item
    handed to the component is one of that id when the id names a catalog
    item, and [undefined] otherwise.  When every reference names a catalog
    item, every filled slot renders an item of the id it holds. *)
Theorem slotContent_found st k :
  (slotContent st k = None ↔ slots st !! k = None ∨ slots st !! k = Some "")
  ∧ (∀ x, slots st !! k = Some x → x ≠ "" → x ∉ catalogIds st →
          slotContent st k = Some None)
  ∧ (∀ x, slots st !! k = Some x → x ≠ "" → x ∈ catalogIds st →
          ∃ i, slotContent st k = Some (Some i) ∧ id i = x ∧ i ∈ items st)
  ∧ (referencesInCatalog st → k ∈ SLOT_IDS → slotContent st k ≠ Some None).
Proof.
  unfold slotContent.
  assert (∀ x, x ≠ "" → x ∈ catalogIds st →
               ∃ i, findItem (items st) x = Some i ∧ id i = x ∧ i ∈ items st)
    as Hfound.
  { intros x Hx Hcat. destruct (findItem (items st) x) as [i|] eqn:Hfind.
    - exists i. apply findItem_Some in Hfind as [? ?]. done.
    - by apply findItem_None in Hfind. }
  split_and!.
  - destruct (slots st !! k) as [x|]; [|tauto].
    destruct (decide (x = "")) as [->|Hx].
    + rewrite truthy_empty. tauto.
    + rewrite truthy_nonempty by done. split; [done|].
      intros [?|[= ?]]; done.
  - intros x -> Hx Hcat. rewrite truthy_nonempty by done.
    by rewrite (proj2 (findItem_None _ _) Hcat).
  - intros x -> Hx Hcat. rewrite truthy_nonempty by done.
    destruct (Hfound x Hx Hcat) as (i & -> & Hid & Hi). by exists i.
  - intros Href Hk. destruct (slots st !! k) as [x|] eqn:Hheld; [|done].
    destruct (decide (x = "")) as [->|Hx].
    + by rewrite truthy_empty.
    + rewrite truthy_nonempty by done.
      destruct (Hfound x Hx) as (i & -> & _); [|done].
      apply Href. left. by exists k.
Qed.
End catalog_runs.

(** ** Stats entries, insertion bounds, the load effect, the first prototype *)

Section more_code.
Implicit Types (st : AppState) (a t x y k : string) (v : Prototype).

Lemma trim_empty : trim "" = "".
Proof. reflexivity. Qed.

Lemma pairKey_trimmed pair : trim (pairKey pair) = pairKey pair.
Proof.
  unfold pairKey. rewrite list_lookup_fmap.
  destruct (split "=" pair !! 0%nat); cbn; [apply trim_idemp|apply trim_empty].
Qed.

Lemma pairValue_trimmed pair s : pairValue pair = Some s → trim s = s.
Proof.
  unfold pairValue. rewrite list_lookup_fmap.
  intros (piece & _ & ->)%fmap_Some. apply trim_idemp.
Qed.

(** X20.  Every entry of the parsed stats has a non-empty key other than
    ["__proto__"] and without white space around it.  A string value has no
    white space around it and is not numeric; a number comes from a numeric
    text; an [undefined] value comes from a pair without ['=']. *)
Theorem stats_entries_well_formed text k (val : StatValue) :
  parseStats text !! k = Some val →
  k ≠ "" ∧ k ≠ "__proto__" ∧ trim k = k
  ∧ match val with
    | SString s => trim s = s ∧ isNumericString s = false
    | SNumber l => trim l = l ∧ isNumericString l = true
    | SUndefined => ∃ p, p ∈ split "," text ∧ pairKey p = k
                         ∧ occursIn "=" p = false
    end.
Proof.
  unfold parseStats. rewrite foldl_parsePair_lookup, lookup_empty.
  unfold lastWithKey.
  destruct (last _) as [p|] eqn:Hlast; [|done].
  case_decide as Hk; [done|]. intros [= <-].
  apply last_Some_elem_of, list_elem_of_filter in Hlast as [Hkey Hin].
  split_and!; [tauto|tauto|by rewrite <- Hkey, pairKey_trimmed|].
  destruct (pairValue p) as [s|] eqn:Hval; cbn.
  - pose proof (pairValue_trimmed _ _ Hval).
    by destruct (isNumericString s) eqn:Hnum.
  - exists p. split_and!; [done..|]. by apply pairValue_None.
Qed.

(** X21.  [moveToStorageAtIndex] accepts any index: the item is taken out of the
    order first, then put at the index clamped to the bounds of what is
    left, so a negative index puts it first and an index past the end puts
    it last; the other ids keep their order. *)
Theorem moveToStorageAtIndex_bounds itemId (toIndex : Z) (p : AppState) :
  let r := storageOrder (snd (StorageFixed.moveToStorageAtIndex itemId toIndex p)) in
  let w := filter (λ x, x ≠ itemId) (storageOrder p) in
  ((toIndex ≤ 0)%Z → r = itemId :: w)
  ∧ ((Z.of_nat (length w) ≤ toIndex)%Z → r = w ++ [itemId])
  ∧ ((0 ≤ toIndex ≤ Z.of_nat (length w))%Z → r !! Z.to_nat toIndex = Some itemId)
  ∧ length r = S (length w)
  ∧ filter (λ x, x ≠ itemId) r = w.
Proof.
  cbn zeta. unfold StorageFixed.moveToStorageAtIndex, setStorageOrder.
  cbn [snd storageOrder].
  set (w := filter (λ x, x ≠ itemId) (storageOrder p)).
  split_and!.
  - intros H. replace (Z.to_nat _) with 0%nat by lia. done.
  - intros H. replace (Z.to_nat _) with (length w) by lia.
    by rewrite take_ge, drop_ge by lia.
  - intros H. replace (Z.to_nat (0 `max` (toIndex `min` Z.of_nat (length w))))
      with (Z.to_nat toIndex) by lia.
    apply lookup_insert_at. lia.
  - rewrite length_app. cbn. rewrite length_take, length_drop. lia.
  - rewrite filter_app, filter_cons_False by tauto.
    rewrite <- filter_app, take_drop. apply filter_ne_absent, filter_ne_gone.
Qed.

Lemma mergeSlots_lookup (prev : gmap string string)
    (o : gmap string (option string)) k :
  mergeSlots prev o !! k
  = match o !! k with Some held => held | None => prev !! k end.
Proof.
  unfold mergeSlots. rewrite lookup_merge.
  by destruct (prev !! k), (o !! k).
Qed.

Lemma nulls_lookup (ks : list string) k :
  (list_to_map ((λ k, (k, None)) <$> ks) : gmap string (option string)) !! k
  = if decide (k ∈ ks) then Some None else None.
Proof.
  induction ks as [|k0 ks IH]; [done|]. cbn.
  destruct (decide (k = k0)) as [->|Hne].
  - rewrite lookup_insert_eq. rewrite decide_True; [done|]. by left.
  - rewrite lookup_insert_ne by done. rewrite IH.
    apply decide_ext. rewrite elem_of_cons. tauto.
Qed.

Lemma slotsObject_lookup (m : gmap string string) k :
  slotsObject m !! k
  = match m !! k with
    | Some x => Some (Some x)
    | None => if decide (k ∈ SLOT_IDS) then Some None else None
    end.
Proof.
  unfold slotsObject. rewrite lookup_union, lookup_fmap, nulls_lookup.
  destruct (m !! k); cbn; by case_decide.
Qed.

Lemma loadEffect_parsed v (q : Parsed) st (p : AppState) :
  loadEffect v (JsonValue q) st p
  = (Normal (),
     mkApp (default [] (p_items q)) (default [] (p_storageOrder q))
           (mergeSlots (slots p) (default ∅ (p_slots q)))
           (newName p) (newIcon p) (newDesc p) (newStats p)).
Proof. reflexivity. Qed.

(** X22.  The load effect never throws.  A blob that does not parse, or the JSON
    text [null], leaves the state as it is; with nothing persisted [App.tsx]
    leaves the state as it is too, while the storage-fixed prototype
    installs the two demo items, both stored. *)
Theorem load_tolerates_bad_blob v (raw : Persisted) st :
  outcome (loadEffect v raw) st = Normal ()
  ∧ (raw = Malformed ∨ raw = JsonNull → commit (loadEffect v raw) st = st)
  ∧ commit (loadEffect TooltipHoverApp NoBlob) st = st
  ∧ commit (loadEffect StorageFixedApp NoBlob) st
    = mkApp demo ["sword"; "shield"] (slots st)
            (newName st) (newIcon st) (newDesc st) (newStats st).
Proof.
  split_and!.
  - by destruct raw, v.
  - intros [-> | ->]; by destruct st.
  - by destruct st.
  - done.
Qed.

(** X23.  Loading a parsed snapshot replaces the catalog and the storage order by
    its fields, or by the empty list where a field is missing; a slot
    listed in the snapshot takes the snapshot's value, [null] emptying it,
    and a slot the snapshot does not list keeps what it held. *)
Theorem load_installs_snapshot v (q : Parsed) st :
  let st' := commit (loadEffect v (JsonValue q)) st in
  items st' = default [] (p_items q)
  ∧ storageOrder st' = default [] (p_storageOrder q)
  ∧ (∀ k held, default ∅ (p_slots q) !! k = Some held → slots st' !! k = held)
  ∧ (∀ k, default ∅ (p_slots q) !! k = None → slots st' !! k = slots st !! k)
  ∧ (p_slots q = None → slots st' = slots st).
Proof.
  cbn zeta. unfold commit. rewrite loadEffect_parsed. cbn [snd items storageOrder slots].
  split_and!; [done|done| | |].
  - intros k held Hk. by rewrite mergeSlots_lookup, Hk.
  - intros k Hk. by rewrite mergeSlots_lookup, Hk.
  - intros ->. apply map_eq. intros k. rewrite mergeSlots_lookup. cbn [default].
    by rewrite lookup_empty.
Qed.

(** X24.  What was saved comes back: loading a snapshot that carries the storage
    order and the slots object of a state, on top of slots that have only
    slot identifiers as keys (as the initial ones), restores that storage
    order and that slot assignment. *)
Theorem load_restores_order_and_slots v (saved st : AppState)
    (its : option (list Item)) :
  (∀ k, is_Some (slots st !! k) → k ∈ SLOT_IDS) →
  let st' := commit (loadEffect v (JsonValue
               (mkParsed its (Some (storageOrder saved))
                         (Some (slotsObject (slots saved)))))) st in
  storageOrder st' = storageOrder saved ∧ slots st' = slots saved.
Proof.
  intros Hkeys. cbn zeta. unfold commit. rewrite loadEffect_parsed.
  cbn [snd storageOrder slots p_items p_storageOrder p_slots default].
  split; [done|]. apply map_eq. intros k.
  rewrite mergeSlots_lookup. unfold Datatypes.id. rewrite slotsObject_lookup.
  destruct (slots saved !! k) as [x|]; [done|].
  case_decide as Hk; [done|].
  destruct (slots st !! k) eqn:Hheld; [|done].
  destruct Hk. apply Hkeys. by rewrite Hheld.
Qed.

Lemma slotsOnly_lookup a t (prev : gmap string string) k :
  SlotsOnly.handleDragEnd a (Some t) prev !! k
  = if decide (k = t) then Some a
    else if decide (prev !! k = Some a) then None else prev !! k.
Proof.
  unfold SlotsOnly.handleDragEnd.
  destruct (decide (k = t)) as [->|Hne]; [apply lookup_insert_eq|].
  rewrite lookup_insert_ne by done. rewrite clear_fold_lookup.
  apply decide_ext. rewrite elem_of_elements, elem_of_dom.
  split; [tauto|]. intros H. split; [|done]. by rewrite H.
Qed.

(** X25.  In the first prototype a drop puts the active item into the target slot
    and takes it out of every other slot; the slots that held other items,
    the target apart, keep them; a drop outside every slot changes
    nothing. *)
Theorem slots_only_drop a t (prev : gmap string string) :
  SlotsOnly.handleDragEnd a None prev = prev
  ∧ SlotsOnly.handleDragEnd a (Some t) prev !! t = Some a
  ∧ (∀ k, k ≠ t → SlotsOnly.handleDragEnd a (Some t) prev !! k ≠ Some a)
  ∧ (∀ k y, k ≠ t → y ≠ a →
       SlotsOnly.handleDragEnd a (Some t) prev !! k = Some y ↔ prev !! k = Some y).
Proof.
  split_and!; [done| | |].
  - rewrite slotsOnly_lookup. by rewrite decide_True.
  - intros k Hk. rewrite slotsOnly_lookup, decide_False by done.
    case_decide; [done|done].
  - intros k y Hk Hy. rewrite slotsOnly_lookup, decide_False by done.
    case_decide as Hheld; [|done]. rewrite Hheld.
    split; [done|]. intros [= ?]. congruence.
Qed.

(** X26.  In the first prototype the item that occupied the target slot is
    overwritten: when no other slot held it, no slot holds it after the
    drop. *)
Theorem slots_only_occupant_lost a t y (prev : gmap string string) :
  prev !! t = Some y → y ≠ a →
  (∀ k, prev !! k = Some y → k = t) →
  ∀ k, SlotsOnly.handleDragEnd a (Some t) prev !! k ≠ Some y.
Proof.
  intros Hheld Hy Honly k. rewrite slotsOnly_lookup.
  case_decide as Hk; [congruence|].
  case_decide; [done|]. intros Hk'. by apply Hk, Honly.
Qed.
End more_code.

(** ** The further properties at concrete states *)

Lemma demoState_store_invariant : storeInvariant demoState.
Proof.
  split; [by_decide|]. split_and!; intros *; cbn; rewrite ?lookup_empty; done.
Qed.

Lemma demoState_partitioned : partitioned demoState.
Proof.
  intros x Hx. assert (stored demoState x) as Hs by exact Hx.
  split; [by right|]. intros [(k & _ & Hheld) _]. cbn in Hheld.
  by rewrite lookup_empty in Hheld.
Qed.

Lemma demoState_references : referencesInCatalog demoState.
Proof.
  intros x [(k & _ & Hheld)|Hs]; [|exact Hs].
  cbn in Hheld. by rewrite lookup_empty in Hheld.
Qed.

Lemma demoState_names : namesTrimmed demoState.
Proof.
  intros i Hi. cbn in Hi.
  apply elem_of_cons in Hi as [->|Hi]; [by vm_compute|].
  apply list_elem_of_singleton in Hi as ->. by vm_compute.
Qed.

Lemma demoSwordEquipped_eq :
  storageOrder demoSwordEquipped = ["shield"]
  ∧ slots demoSwordEquipped = {["mainHand" := "sword"]}
  ∧ catalogIds demoSwordEquipped = ["sword"; "shield"].
Proof. by vm_compute. Qed.

Lemma move_requires_gesture_witness :
  (truthy_opt (Some "") = false ∨ truthy_opt (Some "head") = false)
  ∧ commit (handleDragEnd TooltipHoverApp (Some "") (Some "head")) swordInHand
    = swordInHand.
Proof.
  assert (truthy_opt (Some "") = false ∨ truthy_opt (Some "head") = false) as H
    by (left; reflexivity).
  split; [exact H|].
  exact (move_requires_gesture TooltipHoverApp (Some "") (Some "head") swordInHand H).
Defined.

Lemma unknown_target_ignored_witness :
  (("trash" ∉ storageOrder swordInHand) ∧ "trash" ≠ "storage" ∧ "trash" ∉ SLOT_IDS)
  ∧ resolveMove StorageFixedApp "sword" "trash" swordInHand = swordInHand.
Proof.
  assert ("trash" ∉ storageOrder swordInHand) as H1 by by_decide.
  assert ("trash" ∉ SLOT_IDS) as H2 by by_decide.
  split; [by split_and!|].
  apply (unknown_target_ignored StorageFixedApp "sword" "trash" swordInHand);
    done.
Defined.

Lemma tooltip_ignores_drop_on_stored_item_witness :
  ("sword" ≠ "" ∧ "shield" ≠ "" ∧ "shield" ≠ "storage" ∧ ("shield" ∉ SLOT_IDS)
   ∧ "shield" ∈ storageOrder swordInHand ∧ "sword" ∉ storageOrder swordInHand)
  ∧ resolveMove TooltipHoverApp "sword" "shield" swordInHand = swordInHand.
Proof.
  assert ("shield" ∉ SLOT_IDS) as H1 by by_decide.
  assert ("shield" ∈ storageOrder swordInHand) as H2 by by_decide.
  assert ("sword" ∉ storageOrder swordInHand) as H3 by by_decide.
  split; [by split_and!|].
  apply (tooltip_ignores_drop_on_stored_item "sword" "shield" swordInHand); done.
Defined.

Lemma prototypes_agree_witness :
  ("mainHand" ∈ storageOrder swordInHand →
   "shield" ∈ storageOrder swordInHand ∨ "mainHand" = "storage")
  ∧ resolveMove TooltipHoverApp "shield" "mainHand" swordInHand
    = resolveMove StorageFixedApp "shield" "mainHand" swordInHand.
Proof.
  assert ("mainHand" ∈ storageOrder swordInHand →
          "shield" ∈ storageOrder swordInHand ∨ "mainHand" = "storage") as H.
  { intros _. left. by_decide. }
  split; [exact H|].
  exact (prototypes_agree "shield" "mainHand" swordInHand H).
Defined.

Lemma move_keeps_every_id_witness :
  "sword" ≠ ""
  ∧ (present swordInHand "sword" →
     present (resolveMove TooltipHoverApp "shield" "mainHand" swordInHand) "sword").
Proof.
  assert ("sword" ≠ "") as H by done.
  split; [exact H|].
  exact (proj1 (move_keeps_every_id TooltipHoverApp "shield" "mainHand"
                  swordInHand "sword" H)).
Defined.

Lemma container_drop_idempotent_witness :
  ("sword" ≠ "" ∧ "sword" ≠ "storage" ∧ "storage" ∉ storageOrder swordInHand)
  ∧ resolveMove StorageFixedApp "sword" "storage"
      (resolveMove StorageFixedApp "sword" "storage" swordInHand)
    = resolveMove StorageFixedApp "sword" "storage" swordInHand.
Proof.
  assert ("storage" ∉ storageOrder swordInHand) as H by by_decide.
  split; [by split_and!|].
  apply (container_drop_idempotent StorageFixedApp "sword" swordInHand); done.
Defined.

Lemma self_drop_then_container_witness :
  ("sword" ≠ "" ∧ "sword" ≠ "storage" ∧ "mainHand" ∈ SLOT_IDS
   ∧ slots swordInHand !! "mainHand" = Some "sword"
   ∧ ("sword" ∉ storageOrder swordInHand)
   ∧ ("mainHand" ∉ storageOrder swordInHand)
   ∧ "storage" ∉ storageOrder swordInHand)
  ∧ resolveMove TooltipHoverApp "sword" "storage"
      (resolveMove TooltipHoverApp "sword" "mainHand" swordInHand)
    = resolveMove TooltipHoverApp "sword" "storage" swordInHand.
Proof.
  assert ("mainHand" ∈ SLOT_IDS) as H1 by by_decide.
  assert (slots swordInHand !! "mainHand" = Some "sword") as H2 by reflexivity.
  assert ("sword" ∉ storageOrder swordInHand) as H3 by by_decide.
  assert ("mainHand" ∉ storageOrder swordInHand) as H4 by by_decide.
  assert ("storage" ∉ storageOrder swordInHand) as H5 by by_decide.
  split; [by split_and!|].
  apply (self_drop_then_container TooltipHoverApp "sword" "mainHand" swordInHand);
    done.
Defined.

Lemma create_then_remove_witness :
  freshId "item-9" swordInHand
  ∧ storageOrder (remove "item-9"
      (create TooltipHoverApp "item-9" "Boots" "" "" "speed=2" swordInHand))
    = storageOrder swordInHand.
Proof.
  assert (freshId "item-9" swordInHand) as H.
  { split_and!; [by_decide|by_decide|]. intros k. cbn.
    destruct (decide (k = "mainHand")) as [->|Hk]; [done|].
    by rewrite lookup_singleton_ne. }
  split; [exact H|].
  exact (proj1 (proj2 (create_then_remove TooltipHoverApp "item-9" "Boots" "" ""
                         "speed=2" swordInHand H))).
Defined.

Lemma demoSwordEquipped_run (allowed : AppState → string → string → Prop) :
  allowed demoState "sword" "mainHand" →
  run StorageFixedApp allowed demoState demoSwordEquipped.
Proof. intros H. apply run_move; [constructor|exact H]. Qed.

Lemma run_keeps_store_invariant_witness :
  (storeInvariant demoState
   ∧ run StorageFixedApp anyMove demoState demoSwordEquipped)
  ∧ NoDup (storageOrder demoSwordEquipped)
  ∧ slotsWellFormed (slots demoSwordEquipped).
Proof.
  pose proof demoState_store_invariant as H0.
  pose proof (demoSwordEquipped_run anyMove I) as Hrun.
  split; [by split|].
  exact (run_keeps_store_invariant StorageFixedApp anyMove demoState
           demoSwordEquipped H0 Hrun).
Defined.

Lemma run_keeps_partition_witness :
  (storeInvariant demoState ∧ partitioned demoState
   ∧ run StorageFixedApp noSelfDrop demoState demoSwordEquipped)
  ∧ partitioned demoSwordEquipped.
Proof.
  pose proof demoState_store_invariant as H0.
  pose proof demoState_partitioned as H1.
  assert (run StorageFixedApp noSelfDrop demoState demoSwordEquipped) as Hrun.
  { apply demoSwordEquipped_run. unfold noSelfDrop. cbn. by rewrite lookup_empty. }
  split; [by split_and!|].
  exact (run_keeps_partition StorageFixedApp demoState demoSwordEquipped H0 H1 Hrun).
Defined.

Lemma run_keeps_catalog_ids_unique_witness :
  (NoDup (catalogIds demoState)
   ∧ run StorageFixedApp anyMove demoState demoSwordEquipped)
  ∧ NoDup (catalogIds demoSwordEquipped).
Proof.
  assert (NoDup (catalogIds demoState)) as H0 by by_decide.
  pose proof (demoSwordEquipped_run anyMove I) as Hrun.
  split; [by split|].
  exact (run_keeps_catalog_ids_unique StorageFixedApp anyMove demoState
           demoSwordEquipped H0 Hrun).
Defined.

Lemma run_keeps_names_trimmed_witness :
  (namesTrimmed demoState
   ∧ run StorageFixedApp anyMove demoState demoSwordEquipped)
  ∧ namesTrimmed demoSwordEquipped.
Proof.
  pose proof demoState_names as H0.
  pose proof (demoSwordEquipped_run anyMove I) as Hrun.
  split; [by split|].
  exact (run_keeps_names_trimmed StorageFixedApp anyMove demoState
           demoSwordEquipped H0 Hrun).
Defined.

Lemma run_keeps_references_witness :
  (referencesInCatalog demoState
   ∧ run StorageFixedApp catalogMove demoState demoSwordEquipped)
  ∧ referencesInCatalog demoSwordEquipped.
Proof.
  pose proof demoState_references as H0.
  assert (run StorageFixedApp catalogMove demoState demoSwordEquipped) as Hrun.
  { apply demoSwordEquipped_run. unfold catalogMove. by_decide. }
  split; [by split|].
  exact (run_keeps_references StorageFixedApp demoState demoSwordEquipped H0 Hrun).
Defined.

Lemma stale_id_is_stored_witness :
  ("ghost" ≠ "" ∧ ("ghost" ∉ catalogIds swordInHand)
   ∧ "ghost" ∉ storageOrder swordInHand)
  ∧ storageOrder (resolveMove TooltipHoverApp "ghost" "storage" swordInHand)
    = storageOrder swordInHand ++ ["ghost"].
Proof.
  assert ("ghost" ∉ catalogIds swordInHand) as H1 by by_decide.
  assert ("ghost" ∉ storageOrder swordInHand) as H2 by by_decide.
  split; [by split_and!|].
  assert ("ghost" ≠ "") as H0 by done.
  exact (proj1 (stale_id_is_stored TooltipHoverApp "ghost" swordInHand H0 H1 H2)).
Defined.

Lemma stats_entries_well_formed_witness :
  parseStats "attack=5, rarity = epic" !! "rarity" = Some (SString "epic")
  ∧ trim "rarity" = "rarity" ∧ trim "epic" = "epic".
Proof.
  assert (parseStats "attack=5, rarity = epic" !! "rarity" = Some (SString "epic"))
    as H by (by vm_compute).
  split; [exact H|].
  destruct (stats_entries_well_formed _ _ _ H) as (_ & _ & Hk & Hv & _).
  split; [exact Hk|exact Hv].
Defined.

Lemma load_restores_order_and_slots_witness :
  (∀ k, is_Some (slots initialState !! k) → k ∈ SLOT_IDS)
  ∧ storageOrder (commit (loadEffect TooltipHoverApp (JsonValue
        (mkParsed (Some (items swordInHand)) (Some (storageOrder swordInHand))
                  (Some (slotsObject (slots swordInHand)))))) initialState)
    = storageOrder swordInHand
  ∧ slots (commit (loadEffect TooltipHoverApp (JsonValue
        (mkParsed (Some (items swordInHand)) (Some (storageOrder swordInHand))
                  (Some (slotsObject (slots swordInHand)))))) initialState)
    = slots swordInHand.
Proof.
  assert (∀ k, is_Some (slots initialState !! k) → k ∈ SLOT_IDS) as H.
  { intros k [x Hx]. cbn in Hx. by rewrite lookup_empty in Hx. }
  split; [exact H|].
  exact (load_restores_order_and_slots TooltipHoverApp swordInHand initialState
           (Some (items swordInHand)) H).
Defined.

Lemma slots_only_occupant_lost_witness :
  (SlotsOnly.defaultSlots !! "slot1" = Some "shield" ∧ "shield" ≠ "sword"
   ∧ (∀ k, SlotsOnly.defaultSlots !! k = Some "shield" → k = "slot1"))
  ∧ ∀ k, SlotsOnly.handleDragEnd "sword" (Some "slot1") SlotsOnly.defaultSlots !! k
         ≠ Some "shield".
Proof.
  assert (SlotsOnly.defaultSlots !! "slot1" = Some "shield") as H1 by reflexivity.
  assert (∀ k, SlotsOnly.defaultSlots !! k = Some "shield" → k = "slot1") as H2.
  { intros k Hk. apply elem_of_map_to_list in Hk.
    set (l := map_to_list SlotsOnly.defaultSlots) in Hk. vm_compute in l. subst l.
    repeat (apply elem_of_cons in Hk as [Hk|Hk]; [congruence|]).
    by apply elem_of_nil in Hk. }
  split; [by split_and!|].
  exact (slots_only_occupant_lost "sword" "slot1" "shield" SlotsOnly.defaultSlots
           H1 ltac:(done) H2).
Defined.
